(** * funcy: interface collection for mock generation (file.go)

    A shallow embedding of [file.go]: the type renderer [getType], the
    zero-value resolver [getZeroValue], the parameter-name synthesizer
    ([firstStep], [makeIdentName], [getParamField]) and the interface
    collector [getInterfaces], followed by the properties established
    about them.

    Conventions of the embedding.
    - A Go panic (nil dereference, index out of range) is the [Panic]
      outcome of the [result] monad; no function of [file.go] returns an
      [error] value, so there is no third outcome.
    - Go strings are byte strings.  [strings.ToLower] lowers a text of
      ASCII bytes byte by byte and maps [unicode.ToLower] over the runes
      of any other text; the tables of package [unicode] are not part of
      the file, so that mapping is the parameter [unicode_ToLower] of
      Section [Funcy], and every theorem holds for every value of it.
    - [uint] is the 64-bit unsigned integer of the usual targets, with its
      wrap-around written out.
    - Slices are (array, len, cap) triples over a store of backing arrays,
      so that two slice headers can share one array. *)

From Stdlib Require Import Ascii DecimalString ZArith NArith Lia.
From Stdlib Require Import DecimalPos DecimalN.
From Stdlib Require String.
From stdpp Require Import gmap strings list fin_maps.

(** ** Outcomes of Go code that can panic *)

Inductive panic :=
| nil_dereference
| index_out_of_range (i n : nat).

Inductive result (A : Type) :=
| Ok (a : A)
| Panic (p : panic).
Arguments Ok {A} a.
Arguments Panic {A} p.

#[global] Instance result_ret : MRet result := @Ok.
#[global] Instance result_bind : MBind result :=
  fun A B f m => match m with Ok a => f a | Panic p => Panic p end.

(** [for _, x := range l { s = body(s, x) }] with the loop state passed
    explicitly; a panic in the body leaves the loop. *)
Fixpoint for_range {A S : Type} (body : S -> A -> result S) (l : list A) (s : S)
  : result S :=
  match l with
  | [] => Ok s
  | x :: l' => s' ← body s x; for_range body l' s'
  end.

(** [l[i]] with Go's bounds check. *)
Definition index {A : Type} (l : list A) (i : nat) : result A :=
  match l !! i with
  | Some x => Ok x
  | None => Panic (index_out_of_range i (length l))
  end.

(** ** The parts of package [strings] and [fmt] that the file uses *)

Definition HasPrefix (s prefix : string) : bool := String.prefix prefix s.

(** [strings.Index]: the byte offset of the first occurrence, or -1. *)
Definition Index (s substr : string) : Z :=
  match String.index 0 substr s with
  | Some i => Z.of_nat i
  | None => (-1)%Z
  end.

(** [s[n:]]; every use in the file has [n <= len(s)]. *)
Fixpoint slice_from (s : string) (n : nat) {struct n} : string :=
  match n, s with
  | O, _ => s
  | S n', String _ s' => slice_from s' n'
  | S _, EmptyString => EmptyString
  end.

Definition lower_byte (c : ascii) : ascii :=
  let n := nat_of_ascii c in
  if (65 <=? n)%nat && (n <=? 90)%nat then ascii_of_nat (n + 32) else c.

(** The two passes of [strings.ToLower] over the bytes of [s]: is every
    byte below [utf8.RuneSelf], and the text with ['A'..'Z'] lowered. *)
Definition RuneSelf : nat := 128.

Fixpoint isASCII (s : string) : bool :=
  match s with
  | EmptyString => true
  | String c s' => (nat_of_ascii c <? RuneSelf)%nat && isASCII s'
  end.

Fixpoint lower_bytes (s : string) : string :=
  match s with
  | EmptyString => EmptyString
  | String c s' => String (lower_byte c) (lower_bytes s')
  end.

Fixpoint Join (elems : list string) (sep : string) : string :=
  match elems with
  | [] => EmptyString
  | [x] => x
  | x :: rest => x +:+ sep +:+ Join rest sep
  end.

(** [uint] arithmetic and the [%d] verb. *)
Definition uint_size : N := 64.
Definition uint_incr (i : N) : N := ((i + 1) mod 2 ^ uint_size)%N.
Definition fmt_d (i : N) : string := NilZero.string_of_uint (N.to_uint i).

(** ** The syntax tree ([go/ast]) as far as the file inspects it *)

Record Ident := { NamePos : N; Name : string }.

Record Field (E : Type) := { Names : list Ident; Type_ : E }.
Arguments Names {E} _.
Arguments Type_ {E} _.

(** [ast.ChanDir] and [types.ChanDir]; [getType] converts one to the other
    by its numeric value. *)
Definition ast_SEND : Z := 1.
Definition ast_RECV : Z := 2.
Definition types_SendRecv : Z := 0.
Definition types_SendOnly : Z := 1.
Definition types_RecvOnly : Z := 2.

(** A [*ast.FieldList] that the parser always allocates ([Params],
    [Methods], [Fields]) is its [List]; [Results] is [nil] for a signature
    without results, hence an [option]. *)
#[warning="-register-all"]
Inductive Expr :=
| EIdent (id : Ident)
| SelectorExpr (X : Expr) (Sel : Ident)
| StarExpr (X : Expr)
| ArrayType (Len : option Expr) (Elt : Expr)
| MapType (Key Value : Expr)
| FuncType (Params : list (Field Expr)) (Results : option (list (Field Expr)))
| ChanType (Dir : Z) (Value : Expr)
| StructType (Fields : list (Field Expr))
| InterfaceType (Methods : list (Field Expr))
| SliceExpr (X : Expr)
| ParenExpr (X : Expr)
| Ellipsis (Elt : Expr)
| BasicLit (Value : string).

Record TypeSpec := { TypeSpec_Name : Ident; TypeSpec_Type : Expr }.

Inductive Spec :=
| SpecType (ts : TypeSpec)
| SpecImport (path : string).

Inductive Decl :=
| GenDecl (Specs : list Spec).

Record File := { File_Name : Ident; Decls : list Decl }.

(** ** The records handed to the emitter

    Their declarations are outside [file.go]; the fields are those of the
    composite literals in [makeParam], [makeReturn] and [getInterfaces]. *)

Record Param := { TypeOnly : string; NameOnly : string; Field_ : string }.
Record Return := { Return_Type : string; Return_Value : string }.
Record Interface :=
  { Interface_Name : string; Interface_Param : Param; Interface_Return : Return }.

(** ** Static tables *)

Definition reserved : gmap string string :=
  list_to_map
    [ ("bool", "bval"); ("int", "ival"); ("int8", "i8val");
      ("int16", "i16val"); ("int32", "i32val"); ("int64", "i64val");
      ("uint", "uival"); ("uint8", "ui8val"); ("uint16", "ui16val");
      ("uint32", "ui32val"); ("uint64", "ui64val"); ("float32", "f32val");
      ("float64", "f64val"); ("complex64", "cmplx64val");
      ("complex128", "cmplx128val"); ("string", "strval");
      ("struct{}", "structval"); ("interface{}", "ifaceval") ].

(** [reservedPrefix] as the sequence of entries a [range] loop visits.  Go
    leaves the order open; [reservedPrefix_swapped] is the other one. *)
Definition reservedPrefix : list (string * string) :=
  [ ("map", "map"); ("[]", "s") ].
Definition reservedPrefix_swapped : list (string * string) :=
  [ ("[]", "s"); ("map", "map") ].

(** ** TypeRenderer: [getParamTypes], [getReturnFields], [getType] *)

Definition getParamTypes_ (getType : Expr -> result string)
    (list : list (Field Expr)) : result string :=
  params ← for_range
    (fun params p => t ← getType (Type_ p); Ok (params ++ [t])) list [];
  Ok (Join params ", ").

Definition getReturnFields_body (getType : Expr -> result string)
    (params : list string) (p : Field Expr) : result (list string) :=
  match Names p with
  | n :: _ => t ← getType (Type_ p); Ok (params ++ [Name n +:+ " " +:+ t])
  | [] => t ← getType (Type_ p); Ok (params ++ [t])
  end.

Definition getReturnFields_ (getType : Expr -> result string)
    (list : list (Field Expr)) : result string :=
  params ← for_range (getReturnFields_body getType) list [];
  if decide (1 < length params)
  then Ok ("(" +:+ Join params ", " +:+ ")")
  else index params 0.

Fixpoint getType (expr : Expr) : result string :=
  match expr with
  | EIdent v => Ok (Name v)
  | SelectorExpr X Sel => x ← getType X; Ok (x +:+ "." +:+ Name Sel)
  | StarExpr X => x ← getType X; Ok ("*" +:+ x)
  | ArrayType _ Elt => e ← getType Elt; Ok ("[]" +:+ e)
  | MapType Key Value =>
      k ← getType Key; v ← getType Value; Ok ("map[" +:+ k +:+ "]" +:+ v)
  | FuncType Params Results =>
      ps ← getParamTypes_ getType Params;
      match Results with
      | None => Panic nil_dereference
      | Some results =>
          rs ← getReturnFields_ getType results;
          Ok ("func(" +:+ ps +:+ ") " +:+ rs)
      end
  | ChanType Dir Value =>
      let ch := "chan " in
      let ch :=
        if decide (Dir = types_SendRecv) then ch
        else if decide (Dir = types_SendOnly) then ch +:+ "<-"
        else if decide (Dir = types_RecvOnly) then "<-" +:+ ch
        else ch in
      v ← getType Value; Ok (ch +:+ v)
  | StructType _ => Ok "struct{}"
  | InterfaceType _ => Ok "interface{}"
  | _ => Ok "nil"
  end.

Definition getParamTypes : list (Field Expr) -> result string :=
  getParamTypes_ getType.
Definition getReturnFields : list (Field Expr) -> result string :=
  getReturnFields_ getType.

(** ** NameSynthesizer: [firstStep], [makeIdentName], [getParamField] *)

Definition firstStep_in (order : list (string * string)) (lower : string)
  : string :=
  if existsb (fun kv => HasPrefix lower kv.1) order then lower
  else
    let idx := Index lower "." in
    if decide (idx ≠ (-1)%Z) then
      let typ := slice_from lower (Z.to_nat (idx + 1)) in
      if decide (typ = "context") then "ctx" else typ
    else lower.

Definition firstStep : string -> string := firstStep_in reservedPrefix.

(** The loop [for k, v := range reservedPrefix] of [makeIdentName], which
    leaves through [return makeIdentName(ident[idx+1:]) + v]; [rec] is the
    recursive call. *)
Fixpoint makeIdentName_range (rec : string -> string) (ident : string)
    (entries : list (string * string)) : string :=
  match entries with
  | [] => ident
  | (k, v) :: entries' =>
      if HasPrefix ident k then
        let idx := Index ident "]" in
        if decide (idx ≠ (-1)%Z)
        then rec (slice_from ident (Z.to_nat (idx + 1))) +:+ v
        else makeIdentName_range rec ident entries'
      else makeIdentName_range rec ident entries'
  end.

(** The recursive call of [makeIdentName] is on a proper suffix of its
    argument, so [fuel] above the length of [lower] is never used up. *)
Fixpoint makeIdentName_in (order : list (string * string)) (fuel : nat)
    (lower : string) : string :=
  match fuel with
  | O => lower
  | S fuel' =>
      let ident := firstStep_in order lower in
      match reserved !! ident with
      | Some v => v
      | None => makeIdentName_range (makeIdentName_in order fuel') ident order
      end
  end.

Definition makeIdentName (lower : string) : string :=
  makeIdentName_in reservedPrefix (S (String.length lower)) lower.

(** ** The functions that reach [strings.ToLower] *)

Section Funcy.

(** [strings.Map(unicode.ToLower, s)], the result of [strings.ToLower] on a
    text [s] that holds a byte at or above [utf8.RuneSelf]. *)
Variable unicode_ToLower : string -> string.

Definition ToLower (s : string) : string :=
  if isASCII s then lower_bytes s else unicode_ToLower s.

(** The loop state of [getParamField]: the collision table [m] and the
    slices [params] and [names]. *)
Definition getParamField_body
    (st : gmap string N * list string * list string) (p : Field Expr)
  : result (gmap string N * list string * list string) :=
  let '(m, params, names) := st in
  match Names p with
  | n :: _ =>
      t ← getType (Type_ p);
      Ok (m, params ++ [Name n +:+ " " +:+ t], names ++ [Name n])
  | [] =>
      t ← getType (Type_ p);
      let lt := ToLower t in
      let key := makeIdentName lt in
      match m !! key with
      | Some i =>
          Ok (<[key := uint_incr i]> m,
              params ++ [key +:+ fmt_d i +:+ " " +:+ t],
              names ++ [key +:+ fmt_d i])
      | None =>
          Ok (<[key := 0%N]> m, params ++ [key +:+ " " +:+ t], names ++ [key])
      end
  end.

Definition getParamField_slices (list : list (Field Expr))
  : result (Datatypes.list string * Datatypes.list string) :=
  st ← for_range getParamField_body list (∅, [], []);
  let '(_, params, names) := st in Ok (params, names).

Definition getParamField (list : list (Field Expr)) : result (string * string) :=
  pn ← getParamField_slices list;
  Ok (Join pn.1 ", ", Join pn.2 ", ").

Definition makeParam (list : list (Field Expr)) : result Param :=
  fn ← getParamField list;
  types ← getParamTypes list;
  Ok {| TypeOnly := types; NameOnly := fn.2; Field_ := fn.1 |}.

(** ** ZeroValueResolver: [getBuiltinZeroValue], [getZeroValue] *)

(** The Go string literal of two double-quote characters. *)
Definition empty_string_literal : string :=
  String "034"%char (String "034"%char EmptyString).

Definition numeric_kinds : list string :=
  [ "uint8"; "uint16"; "uint32"; "uint64"; "uint"; "uintptr";
    "int8"; "int16"; "int32"; "int64"; "int"; "byte"; "rune";
    "float32"; "float64";
    "complex64"; "complex128" ].

(** The store of backing arrays of [[]*Interface] slices.  A cell holds a
    pointer to an [Interface] record, or [nil]; the records are never
    written after their creation. *)
Abbreviation store := (list (list (option Interface))) (only parsing).

Section Collector.

(** The type-checker's answer for an identifier node:
    [f.info.TypeOf(ident)] followed by [.Underlying().String()], or [None]
    where [TypeOf] yields [nil]. *)
Variable underlying : Ident -> option string.

(** The capacity the runtime's [append] chooses when a slice of capacity
    [old] has to hold [needed] elements. *)
Variable growcap : nat -> nat -> nat.

Definition getBuiltinZeroValue (ident : Ident) : result string :=
  match underlying ident with
  | None => Panic nil_dereference
  | Some u =>
      if decide (u ∈ numeric_kinds) then Ok "0"
      else if decide (u = "bool") then Ok "false"
      else if decide (u = "string") then Ok empty_string_literal
      else Ok "nil"
  end.

(** The [*ast.SelectorExpr] case calls [f.getZeroValue(v.Sel)]; [v.Sel] is
    an [*ast.Ident], so that call takes the [*ast.Ident] case. *)
Definition getZeroValue (expr : Expr) : result string :=
  match expr with
  | StarExpr _ | SliceExpr _ | ArrayType _ _ | MapType _ _ | FuncType _ _
  | ChanType _ _ | StructType _ | InterfaceType _ => Ok "nil"
  | SelectorExpr _ Sel => getBuiltinZeroValue Sel
  | EIdent v => getBuiltinZeroValue v
  | _ => Ok "nil"
  end.

Definition getDefaultValues (list : list (Field Expr)) : result string :=
  params ← for_range
    (fun params p => z ← getZeroValue (Type_ p); Ok (params ++ [z])) list [];
  Ok (Join params ", ").

Definition makeReturn (list : list (Field Expr)) : result Return :=
  type ← getReturnFields list;
  value ← getDefaultValues list;
  Ok {| Return_Type := type; Return_Value := value |}.

(** ** Slices of [*Interface] over shared backing arrays *)

Record slice := { array : nat; len : nat; cap : nat }.


Definition backing (h : store) (s : slice) : list (option Interface) :=
  default [] (h !! array s).

Definition elems (h : store) (s : slice) : list (option Interface) :=
  take (len s) (backing h s).

(** [make([]*Interface, 0)] *)
Definition make_empty (h : store) : store * slice :=
  (h ++ [[]], {| array := length h; len := 0; cap := 0 |}).

(** [s[:0]] *)
Definition reslice_to_0 (s : slice) : slice :=
  {| array := array s; len := 0; cap := cap s |}.

(** [append(s, x)]: in place while the capacity lasts, else into a fresh
    array that receives a copy of the elements. *)
Definition append (h : store) (s : slice) (x : option Interface)
  : store * slice :=
  if decide (len s < cap s) then
    (alter (fun a => <[len s := x]> a) (array s) h,
     {| array := array s; len := S (len s); cap := cap s |})
  else
    let newcap := growcap (cap s) (S (len s)) in
    (h ++ [elems h s ++ [x] ++ replicate (newcap - S (len s)) None],
     {| array := length h; len := S (len s); cap := newcap |}).

(** ** InterfaceCollector: [getInterfaces] and the tree walk *)

(** The captured variables [name] and [result] of the callback, the
    backing arrays, and [f.data]. *)
Record collector :=
  { st_name : string;
    st_result : slice;
    st_heap : store;
    st_data : gmap string slice }.

Inductive Node :=
| NodeTypeSpec (v : TypeSpec)
| NodeExpr (v : Expr)
| NodeOther.

(** The composite literal [&Interface{...}], fields evaluated in order. *)
Definition new_Interface (x : Field Expr) (Params : list (Field Expr))
    (Results : option (list (Field Expr))) : result Interface :=
  n ← index (Names x) 0;
  param ← makeParam Params;
  results ← match Results with
            | Some l => Ok l
            | None => Panic nil_dereference
            end;
  ret ← makeReturn results;
  Ok {| Interface_Name := Name n;
        Interface_Param := param;
        Interface_Return := ret |}.

(** The body of [for _, x := range v.Methods.List]. *)
Definition getInterfaces_method (st : collector) (x : Field Expr)
  : result collector :=
  match Type_ x with
  | FuncType Params Results =>
      i ← new_Interface x Params Results;
      let '(h, r) := append (st_heap st) (st_result st) (Some i) in
      Ok {| st_name := st_name st; st_result := r;
            st_heap := h; st_data := st_data st |}
  | _ => Ok st
  end.

(** The callback handed to [f.walk]; it always answers [true]. *)
Definition getInterfaces_fn (n : Node) (st : collector) : result collector :=
  match n with
  | NodeTypeSpec v =>
      let name :=
        match TypeSpec_Type v with
        | InterfaceType _ => Name (TypeSpec_Name v)
        | _ => st_name st
        end in
      Ok {| st_name := name; st_result := reslice_to_0 (st_result st);
            st_heap := st_heap st; st_data := st_data st |}
  | NodeExpr (InterfaceType Methods) =>
      st ← for_range getInterfaces_method Methods st;
      Ok {| st_name := st_name st; st_result := st_result st;
            st_heap := st_heap st;
            st_data := <[st_name st := st_result st]> (st_data st) |}
  | _ => Ok st
  end.

(** [ast.Walk] with a visitor that calls [fn] on every node, parent before
    children, children in the order of [go/ast]. *)
Definition walkFieldList_ (fn : Node -> collector -> result collector)
    (Walk : Expr -> collector -> result collector)
    (l : list (Field Expr)) (st : collector) : result collector :=
  st ← fn NodeOther st;
  for_range
    (fun st f =>
       st ← fn NodeOther st;
       st ← for_range (fun st n => fn (NodeExpr (EIdent n)) st) (Names f) st;
       Walk (Type_ f) st)
    l st.

Fixpoint Walk (fn : Node -> collector -> result collector) (e : Expr)
    (st : collector) {struct e} : result collector :=
  st ← fn (NodeExpr e) st;
  match e with
  | EIdent _ | BasicLit _ => Ok st
  | SelectorExpr X Sel => st ← Walk fn X st; fn (NodeExpr (EIdent Sel)) st
  | StarExpr X | SliceExpr X | ParenExpr X => Walk fn X st
  | ArrayType Len Elt =>
      st ← match Len with Some l => Walk fn l st | None => Ok st end;
      Walk fn Elt st
  | MapType Key Value => st ← Walk fn Key st; Walk fn Value st
  | FuncType Params Results =>
      st ← walkFieldList_ fn (Walk fn) Params st;
      match Results with
      | Some results => walkFieldList_ fn (Walk fn) results st
      | None => Ok st
      end
  | ChanType _ Value => Walk fn Value st
  | StructType Fields => walkFieldList_ fn (Walk fn) Fields st
  | InterfaceType Methods => walkFieldList_ fn (Walk fn) Methods st
  | Ellipsis Elt => Walk fn Elt st
  end.

Definition walkSpec (fn : Node -> collector -> result collector) (s : Spec)
    (st : collector) : result collector :=
  match s with
  | SpecImport _ => st ← fn NodeOther st; fn NodeOther st
  | SpecType ts =>
      st ← fn (NodeTypeSpec ts) st;
      st ← fn (NodeExpr (EIdent (TypeSpec_Name ts))) st;
      Walk fn (TypeSpec_Type ts) st
  end.

Definition walkFile (fn : Node -> collector -> result collector) (f : File)
    (st : collector) : result collector :=
  st ← fn NodeOther st;
  st ← fn (NodeExpr (EIdent (File_Name f))) st;
  for_range
    (fun st d =>
       match d with
       | GenDecl Specs =>
           st ← fn NodeOther st;
           for_range (fun st s => walkSpec fn s st) Specs st
       end)
    (Decls f) st.

(** [getInterfaces] on a freshly parsed file ([f.data] empty); the
    outcome is [f.data] together with the arrays its slices point into. *)
Definition getInterfaces (f : File) : result (store * gmap string slice) :=
  let '(h, r) := make_empty [] in
  st ← walkFile getInterfaces_fn f
         {| st_name := EmptyString; st_result := r;
            st_heap := h; st_data := ∅ |};
  Ok (st_heap st, st_data st).

(** What the emitter reads under an interface name. *)
Definition methods_of (out : store * gmap string slice) (name : string)
  : option (list (option Interface)) :=
  elems out.1 <$> out.2 !! name.

End Collector.

(** ** Loading the files of the package: [loadStdlib] *)

(** The outcome of a Go function that returns [(T, error)]. *)
Inductive returned (A : Type) :=
| Ret (a : A)
| Err (err : string).
Arguments Ret {A} a.
Arguments Err {A} err.

(** [*build.Package], as far as the file reads it. *)
Record Package := { GoFiles : list string; CgoFiles : list string }.

(** The [parser.Mode] values the file passes. *)
Inductive Mode := Mode_0 | AllErrors.

Section Loading.

(** [go/build], [go/parser] and [path/filepath] as the file calls them.
    [parser.ParseFile] records the file in the [*token.FileSet] it is
    given, so the file set is passed through every call. *)
Variable FileSet : Type.
Variable ImportDir : string -> returned Package.
Variable ParseFile : FileSet -> string -> Mode -> FileSet * returned File.
Variable Base : string -> string.
Variable filepath_Join : string -> string -> string.

(** [for _, x := range l { ... }] where the body may [return nil, err]. *)
Fixpoint range_loading {A S : Type}
    (body : S -> A -> FileSet -> FileSet * returned S)
    (l : list A) (s : S) (fset : FileSet) : FileSet * returned S :=
  match l with
  | [] => (fset, Ret s)
  | x :: l' =>
      match body s x fset with
      | (fset', Ret s') => range_loading body l' s' fset'
      | (fset', Err err) => (fset', Err err)
      end
  end.

Definition loadStdlib (fset : FileSet) (af : File) (path dir : string)
  : FileSet * returned (list File) :=
  match ImportDir dir with
  | Err err => (fset, Err err)
  | Ret buildPkg =>
      let base := Base path in
      let astFiles := [af] in
      range_loading
        (fun astFiles files =>
           range_loading
             (fun astFiles file fset =>
                if decide (file = base) then (fset, Ret astFiles)
                else
                  match ParseFile fset (filepath_Join dir file) Mode_0 with
                  | (fset', Ret file') => (fset', Ret (astFiles ++ [file']))
                  | (fset', Err err) => (fset', Err err)
                  end)
             files astFiles)
        [GoFiles buildPkg; CgoFiles buildPkg] astFiles fset
  end.

(** Parsing a list of file names one after the other, up to the first
    error. *)
Fixpoint parse_each (fset : FileSet) (names : list string)
  : FileSet * returned (list File) :=
  match names with
  | [] => (fset, Ret [])
  | n :: names' =>
      match ParseFile fset n Mode_0 with
      | (fset', Ret f) =>
          match parse_each fset' names' with
          | (fset'', Ret fs) => (fset'', Ret (f :: fs))
          | (fset'', Err err) => (fset'', Err err)
          end
      | (fset', Err err) => (fset', Err err)
      end
  end.

End Loading.

(** ** Reference definitions the properties are stated against *)

(** The kinds of the resolver's policy, and the kind of a basic type's
    spelling as [types.Type.String] prints it. *)
Inductive spec_kind :=
| KInteger | KFloat | KComplex | KBoolean | KString | KOther.

Definition spec_kind_of (u : string) : spec_kind :=
  if decide (u ∈ ["int"; "int8"; "int16"; "int32"; "int64";
                  "uint"; "uint8"; "uint16"; "uint32"; "uint64"; "uintptr";
                  "byte"; "rune"]) then KInteger
  else if decide (u ∈ ["float32"; "float64"]) then KFloat
  else if decide (u ∈ ["complex64"; "complex128"]) then KComplex
  else if decide (u = "bool") then KBoolean
  else if decide (u = "string") then KString
  else KOther.

Definition spec_zero (k : spec_kind) : string :=
  match k with
  | KInteger | KFloat | KComplex => "0"
  | KBoolean => "false"
  | KString => empty_string_literal
  | KOther => "nil"
  end.

(** The text of one result field: its type, after its first name if it has
    names. *)
Definition spec_result_text (p : Field Expr) (t : string) : string :=
  match Names p with
  | n :: _ => Name n +:+ " " +:+ t
  | [] => t
  end.

Definition renderResult (p : Field Expr) : result string :=
  t ← getType (Type_ p); Ok (spec_result_text p t).

(** The stem of an unnamed parameter whose type renders as [t], and the
    name of its occurrence number [k] (counted from 0) among the unnamed
    parameters of that stem: [stem, stem0, stem1, ...]. *)
Definition spec_stem (t : string) : string := makeIdentName (ToLower t).

Definition spec_synth_name (stem : string) (k : nat) : string :=
  match k with
  | O => stem
  | S j => stem +:+ fmt_d (N.of_nat j)
  end.

Definition occurrences (stem : string) (seen : list string) : nat :=
  length (filter (fun s => s = stem) seen).

(** The stems of the unnamed parameters of a list, in declaration order;
    a parameter is given by its field and its rendered type. *)
Definition unnamed_stems (ps : list (Field Expr * string)) : list string :=
  omap (fun pt => match Names pt.1 with
                  | [] => Some (spec_stem pt.2)
                  | _ :: _ => None
                  end) ps.

(** The names of a parameter list, given the stems [seen] before it. *)
Fixpoint spec_names (seen : list string) (ps : list (Field Expr * string))
  : list string :=
  match ps with
  | [] => []
  | (p, t) :: ps' =>
      match Names p with
      | n :: _ => Name n :: spec_names seen ps'
      | [] =>
          spec_synth_name (spec_stem t) (occurrences (spec_stem t) seen)
            :: spec_names (seen ++ [spec_stem t]) ps'
      end
  end.

(** The collision table after the unnamed stems [seen]: a stem seen
    [j + 1] times is bound to [j], a stem not seen is unbound. *)
Definition table_ok (m : gmap string N) (seen : list string) : Prop :=
  forall s, m !! s = match occurrences s seen with
                     | O => None
                     | S j => Some (N.of_nat j)
                     end.

(** The "name type" entries that go with a list of names. *)
Definition spec_fields (names ts : list string) : list string :=
  zip_with (fun n t => n +:+ " " +:+ t) names ts.

(** A field cut down to its first name. *)
Definition first_name_only (p : Field Expr) : Field Expr :=
  {| Names := take 1 (Names p); Type_ := Type_ p |}.

(** Splitting a text at the commas outside all brackets. *)
Definition is_open (c : ascii) : bool :=
  bool_decide (c ∈ ["("; "["; "{"]%char).
Definition is_close (c : ascii) : bool :=
  bool_decide (c ∈ [")"; "]"; "}"]%char).

Fixpoint spec_split_top_level (depth : nat) (cur : string) (s : string)
  : list string :=
  match s with
  | EmptyString => [cur]
  | String c s' =>
      if bool_decide (c = ","%char) && bool_decide (depth = 0)
      then cur :: spec_split_top_level depth EmptyString s'
      else
        let depth' :=
          if is_open c then S depth
          else if is_close c then pred depth else depth in
        spec_split_top_level depth' (cur +:+ String c EmptyString) s'
  end.

Definition is_FuncType (e : Expr) : bool :=
  match e with FuncType _ _ => true | _ => false end.

(** The record [getInterfaces] builds for a function-typed member. *)
Definition method_record (underlying : Ident -> option string)
    (x : Field Expr) : result Interface :=
  match Type_ x with
  | FuncType Params Results => new_Interface underlying x Params Results
  | _ => Panic nil_dereference
  end.

(** A slice header that fits the store: its array exists, has the length
    of the capacity, and the length is within the capacity. *)
Definition slice_ok (h : store) (s : slice) : Prop :=
  length (backing h s) = cap s /\ len s <= cap s /\ array s < length h.

(** ** Sample inputs *)

Definition ident (name : string) : Ident := {| NamePos := 0; Name := name |}.
Definition unnamed (type : Expr) : Field Expr :=
  {| Names := []; Type_ := type |}.
Definition named (names : list string) (type : Expr) : Field Expr :=
  {| Names := ident <$> names; Type_ := type |}.
Definition method (name : string) (params : list (Field Expr))
    (results : option (list (Field Expr))) : Field Expr :=
  named [name] (FuncType params results).
Definition interface_decl (name : string) (methods : list (Field Expr)) : Decl :=
  GenDecl [SpecType {| TypeSpec_Name := ident name;
                       TypeSpec_Type := InterfaceType methods |}].

(** An oracle for the samples: predeclared basic types are their own
    underlying type, [Celsius] is a [float64], [error] and [Context] are
    interfaces, [Value], [X] and [X0] are structs. *)
Definition sample_underlying (id : Ident) : option string :=
  if decide (Name id ∈ numeric_kinds ++ ["bool"; "string"]) then Some (Name id)
  else if decide (Name id = "Celsius") then Some "float64"
  else if decide (Name id = "error") then Some "interface{Error() string}"
  else if decide (Name id = "Context") then Some "interface{Done() <-chan struct{}}"
  else if decide (Name id ∈ ["Value"; "X"; "X0"]) then Some "struct{}"
  else None.

(** The runtime's growth for small slices: double, or what is needed. *)
Definition sample_growcap (old needed : nat) : nat := Nat.max needed (2 * old).

(** A rune mapping for the samples: they are ASCII texts, on which
    [strings.ToLower] does not consult the tables of [unicode]. *)
Definition sample_unicode_ToLower (s : string) : string := s.

Definition context_Context : Expr :=
  SelectorExpr (EIdent (ident "context")) (ident "Context").
Definition t_int : Expr := EIdent (ident "int").
Definition t_error : Expr := EIdent (ident "error").


(** [Do(context.Context, map[string]int) error] *)
Definition params_Do : list (Field Expr) :=
  [ unnamed context_Context;
    unnamed (MapType (EIdent (ident "string")) t_int) ].

(** [type A interface { F() int }; type B interface { G() error }] *)
Definition file_two_interfaces : File :=
  {| File_Name := ident "sample";
     Decls := [ interface_decl "A" [method "F" [] (Some [unnamed t_int])];
                interface_decl "B" [method "G" [] (Some [unnamed t_error])] ] |}.

(** The projections of an empty parameter list. *)
Definition no_params : Param :=
  {| TypeOnly := EmptyString; NameOnly := EmptyString; Field_ := EmptyString |}.

Definition record_F : Interface :=
  {| Interface_Name := "F";
     Interface_Param := no_params;
     Interface_Return := {| Return_Type := "int"; Return_Value := "0" |} |}.
Definition record_G : Interface :=
  {| Interface_Name := "G";
     Interface_Param := no_params;
     Interface_Return := {| Return_Type := "error"; Return_Value := "nil" |} |}.

(** [type I interface { Set(a, b int) error }] *)
Definition file_two_names : File :=
  {| File_Name := ident "sample";
     Decls := [ interface_decl "I"
                  [method "Set" [named ["a"; "b"] t_int]
                     (Some [unnamed t_error])] ] |}.

(** [Put(X, X, X0) error]: the parameter list. *)
Definition params_X_X_X0 : list (Field Expr) :=
  [ unnamed (EIdent (ident "X")); unnamed (EIdent (ident "X"));
    unnamed (EIdent (ident "X0")) ].

(** [Use(func(context.Context, int) error) error]: the parameter list. *)
Definition params_callback : list (Field Expr) :=
  [ unnamed (FuncType [unnamed context_Context; unnamed t_int]
               (Some [unnamed t_error])) ].

(** [type R interface { io.Reader; Close() error }]: the members. *)
Definition members_embedded : list (Field Expr) :=
  [ unnamed (SelectorExpr (EIdent (ident "io")) (ident "Reader"));
    method "Close" [] (Some [unnamed t_error]) ].

(** [Add(int, string, int, int)]: the parameter list. *)
Definition params_interleaved : list (Field Expr) :=
  [ unnamed t_int; unnamed (EIdent (ident "string"));
    unnamed t_int; unnamed t_int ].

(** [type R interface { io.Reader; Close() error }] *)
Definition file_embedded : File :=
  {| File_Name := ident "sample";
     Decls := [ interface_decl "R" members_embedded ] |}.

Definition record_Close : Interface :=
  {| Interface_Name := "Close";
     Interface_Param := no_params;
     Interface_Return := {| Return_Type := "error"; Return_Value := "nil" |} |}.

(** The collector before the walk of a freshly parsed file. *)
Definition initial_collector : collector :=
  {| st_name := EmptyString;
     st_result := (make_empty []).2;
     st_heap := (make_empty []).1;
     st_data := ∅ |}.

(** [type W interface { Flush() }]: a method without results. *)
Definition file_no_results : File :=
  {| File_Name := ident "sample";
     Decls := [ interface_decl "W" [method "Flush" [] None] ] |}.

(** [type A (interface { F() int })]: the literal under parentheses. *)
Definition file_parenthesized : File :=
  {| File_Name := ident "sample";
     Decls := [ GenDecl [SpecType
                  {| TypeSpec_Name := ident "A";
                     TypeSpec_Type :=
                       ParenExpr (InterfaceType
                         [method "F" [] (Some [unnamed t_int])]) |}] ] |}.

(** Two type names that are not ASCII texts: capital and small e with
    acute accent, as their UTF-8 bytes (195 137 and 195 169). *)
Definition E_acute : string :=
  String (ascii_of_nat 195) (String (ascii_of_nat 137) EmptyString).
Definition e_acute : string :=
  String (ascii_of_nat 195) (String (ascii_of_nat 169) EmptyString).

Definition record_Set : Interface :=
  {| Interface_Name := "Set";
     Interface_Param :=
       {| TypeOnly := "int"; NameOnly := "a"; Field_ := "a int" |};
     Interface_Return := {| Return_Type := "error"; Return_Value := "nil" |} |}.

(** ** Further reference definitions *)

(** The expressions [getType] renders without a panic: every function
    type it reaches has a result list, and that list is not empty. *)
Fixpoint renders (e : Expr) : bool :=
  match e with
  | SelectorExpr X _ | StarExpr X => renders X
  | ArrayType _ Elt => renders Elt
  | MapType Key Value => renders Key && renders Value
  | FuncType Params Results =>
      forallb (fun f => renders (Type_ f)) Params
      && match Results with
         | Some results =>
             negb (bool_decide (results = []))
             && forallb (fun f => renders (Type_ f)) results
         | None => false
         end
  | ChanType _ Value => renders Value
  | _ => true
  end.

(** A type declaration of the file has the name [name] and, directly as
    its type, the interface literal with the member list [Methods]: the
    declarations for which the type assertion on [v.Type] holds. *)
Definition declares_interface (f : File) (name : Ident)
    (Methods : list (Field Expr)) : Prop :=
  exists Specs,
    GenDecl Specs ∈ Decls f /\
    SpecType {| TypeSpec_Name := name;
                TypeSpec_Type := InterfaceType Methods |} ∈ Specs.

(** The texts [getZeroValue] can give. *)
Definition zero_texts : list string :=
  [ "0"; "false"; empty_string_literal; "nil" ].

Fixpoint last_byte (s : string) : option ascii :=
  match s with
  | EmptyString => None
  | String c s' =>
      match s' with
      | EmptyString => Some c
      | String _ _ => last_byte s'
      end
  end.

(** The first declared names of a list of fields. *)
Definition first_names (fields : list (Field Expr)) : list string :=
  omap (fun p => Name <$> head (Names p)) fields.





(** Bytes that are neither a comma nor a bracket, and texts made of them;
    a Go identifier is such a text. *)
Definition plain_byte (c : ascii) : bool :=
  negb (bool_decide (c = ","%char)) && negb (is_open c) && negb (is_close c).

Fixpoint plain_text (s : string) : bool :=
  match s with
  | EmptyString => true
  | String c s' => plain_byte c && plain_text s'
  end.

Definition plain_names (f : Field Expr) : bool :=
  forallb (fun n => plain_text (Name n)) (Names f).

(** Every identifier that reaches the rendering of [e] is a plain text. *)
Fixpoint plain_idents (e : Expr) : bool :=
  match e with
  | EIdent id => plain_text (Name id)
  | SelectorExpr X Sel => plain_idents X && plain_text (Name Sel)
  | StarExpr X => plain_idents X
  | ArrayType _ Elt => plain_idents Elt
  | MapType Key Value => plain_idents Key && plain_idents Value
  | FuncType Params Results =>
      forallb (fun f => plain_idents (Type_ f)) Params
      && match Results with
         | Some results =>
             forallb (fun f => plain_names f && plain_idents (Type_ f)) results
         | None => true
         end
  | ChanType _ Value => plain_idents Value
  | _ => true
  end.

(** A text the splitter reads through without splitting and without a
    change of depth: at every depth, or at every depth inside a bracket. *)
Definition passes (s : string) : Prop :=
  forall depth cur rest,
    spec_split_top_level depth cur (s +:+ rest)
    = spec_split_top_level depth (cur +:+ s) rest.

Definition passes_inside (s : string) : Prop :=
  forall depth cur rest,
    spec_split_top_level (S depth) cur (s +:+ rest)
    = spec_split_top_level (S depth) (cur +:+ s) rest.

(** The parts of a comma-join: the first entry, and every later entry
    after the blank that follows its comma. *)
Definition spec_parts (xs : list string) : list string :=
  match xs with
  | [] => [EmptyString]
  | x :: rest => x :: ((fun y => " " +:+ y) <$> rest)
  end.

(** What a step of the walk may do to the names of [f.data]: the current
    name stays, no bound name is lost, and the only name that may become
    bound is the current one. *)
Definition keeps_names (st st' : collector) : Prop :=
  st_name st' = st_name st /\
  (forall k, is_Some (st_data st !! k) -> is_Some (st_data st' !! k)) /\
  (forall k, is_Some (st_data st' !! k) ->
             is_Some (st_data st !! k) \/ k = st_name st).

(** The names under which a pass over [f] may store a list: the names of
    the type declarations whose type is directly an interface literal, and
    the empty name the pass starts with. *)
Definition storable_name (f : File) (k : string) : Prop :=
  k = EmptyString \/
  exists name Methods, declares_interface f name Methods /\ k = Name name.

(** No bound name is lost from one collector to the next. *)
Definition grows (st st' : collector) : Prop :=
  forall k, is_Some (st_data st !! k) -> is_Some (st_data st' !! k).

(** What the pass over [file_two_interfaces] leaves, with
    [sample_growcap]. *)
Definition sample_output : list (list (option Interface)) * gmap string slice :=
  ([[]; [Some record_G]],
   <["B" := {| array := 1; len := 1; cap := 1 |}]>
     (<["A" := {| array := 1; len := 1; cap := 1 |}]> ∅)).

(** * Properties *)

(** ** The [result] monad and [range] loops *)

Lemma bind_Ok {A B : Type} (a : A) (k : A -> result B) :
  (Ok a ≫= k) = k a.
Proof. reflexivity. Qed.

(** A loop that appends one computed entry per element is [mapM]. *)
Lemma for_range_append {A B : Type} (f : A -> result B) l acc :
  for_range (fun params p => t ← f p; Ok (params ++ [t])) l acc
  = ts ← mapM f l; Ok (acc ++ ts).
Proof.
  revert acc; induction l as [|x l IH]; intros acc; simpl.
  - by rewrite app_nil_r.
  - destruct (f x) as [t|]; simpl; [|reflexivity].
    rewrite IH. destruct (mapM f l); simpl; [|reflexivity].
    by rewrite <- app_assoc.
Qed.

Lemma mapM_Ok_length {A B : Type} (f : A -> result B) l ts :
  mapM f l = Ok ts -> length ts = length l.
Proof.
  revert ts; induction l as [|x l IH]; intros ts; simpl.
  - intros [= <-]. reflexivity.
  - destruct (f x); simpl; [|discriminate].
    destruct (mapM f l); simpl; [|discriminate].
    intros [= <-]. simpl. f_equal. by apply IH.
Qed.

(** ** Strings *)

Lemma string_app_assoc (a b c : string) : (a +:+ b) +:+ c = a +:+ b +:+ c.
Proof.
  induction a as [|x a IH]; [reflexivity|].
  change (String x ((a +:+ b) +:+ c) = String x (a +:+ b +:+ c)).
  by rewrite IH.
Qed.

Lemma slice_from_length s n :
  String.length (slice_from s n) <= String.length s.
Proof.
  revert s; induction n as [|n IH]; intros [|c s]; simpl; try lia.
  specialize (IH s). lia.
Qed.

Lemma slice_from_S_length s n :
  s ≠ EmptyString ->
  String.length (slice_from s (S n)) < String.length s.
Proof.
  destruct s as [|c s]; [done|]. intros _. simpl.
  pose proof (slice_from_length s n). lia.
Qed.

Lemma Index_found s sep :
  Index s sep ≠ (-1)%Z ->
  exists i, String.index 0 sep s = Some i /\ Index s sep = Z.of_nat i.
Proof.
  unfold Index. destruct (String.index 0 sep s) as [i|]; [eauto | done].
Qed.

Lemma Index_bracket_nonempty s : Index s "]" ≠ (-1)%Z -> s ≠ EmptyString.
Proof. intros H ->. by apply H. Qed.

Lemma slice_after_Index_shorter s :
  Index s "]" ≠ (-1)%Z ->
  String.length (slice_from s (Z.to_nat (Index s "]" + 1))) < String.length s.
Proof.
  intros H. pose proof (Index_bracket_nonempty _ H) as Hne.
  destruct (Index_found _ _ H) as (i & _ & ->).
  replace (Z.to_nat (Z.of_nat i + 1)) with (S i) by lia.
  by apply slice_from_S_length.
Qed.

(** ** The static tables *)

Lemma reserved_keys_first_byte k v :
  reserved !! k = Some v ->
  exists c rest, k = String c rest /\
    c ∈ ["b"; "i"; "u"; "f"; "c"; "s"]%char.
Proof.
  unfold reserved. intros H%elem_of_list_to_map_2.
  repeat (apply elem_of_cons in H as [[= -> ->]|H];
          [eexists _, _; split; [reflexivity|set_solver]|]).
  by apply elem_of_nil in H.
Qed.

Lemma reserved_prefix_map x : reserved !! ("map" +:+ x) = None.
Proof.
  destruct (reserved !! ("map" +:+ x)) as [v|] eqn:E; [|done].
  apply reserved_keys_first_byte in E as (c & rest & [= <- _] & Hc).
  repeat (apply elem_of_cons in Hc as [Hc|Hc]; [discriminate|]).
  by apply elem_of_nil in Hc.
Qed.

Lemma reserved_prefix_slice x : reserved !! ("[]" +:+ x) = None.
Proof.
  destruct (reserved !! ("[]" +:+ x)) as [v|] eqn:E; [|done].
  apply reserved_keys_first_byte in E as (c & rest & [= <- _] & Hc).
  repeat (apply elem_of_cons in Hc as [Hc|Hc]; [discriminate|]).
  by apply elem_of_nil in Hc.
Qed.

(** ** NameSynthesizer: fuel and iteration order *)

Lemma firstStep_in_length order lower :
  String.length (firstStep_in order lower) <= String.length lower.
Proof.
  unfold firstStep_in.
  destruct (existsb _ order); [lia|].
  destruct (decide (Index lower "." ≠ (-1)%Z)); [|lia].
  pose proof (slice_from_length lower (Z.to_nat (Index lower "." + 1))) as Hl.
  destruct (decide (_ = "context")) as [E|]; [|lia].
  rewrite E in Hl. simpl in *. lia.
Qed.

Lemma makeIdentName_range_ext rec1 rec2 ident entries :
  (Index ident "]" ≠ (-1)%Z ->
   rec1 (slice_from ident (Z.to_nat (Index ident "]" + 1)))
   = rec2 (slice_from ident (Z.to_nat (Index ident "]" + 1)))) ->
  makeIdentName_range rec1 ident entries = makeIdentName_range rec2 ident entries.
Proof.
  intros Hrec. induction entries as [|[k v] entries IH]; [reflexivity|].
  simpl. destruct (HasPrefix ident k); [|exact IH].
  destruct (decide (_ ≠ (-1)%Z)) as [Hidx|]; [|exact IH].
  by rewrite Hrec.
Qed.

(** Fuel above the length of the argument does not change the result. *)
Lemma makeIdentName_in_fuel order f1 f2 lower :
  String.length lower < f1 -> String.length lower < f2 ->
  makeIdentName_in order f1 lower = makeIdentName_in order f2 lower.
Proof.
  revert f2 lower; induction f1 as [|f1 IH]; intros [|f2] lower H1 H2;
    try lia.
  cbn [makeIdentName_in]. cbv zeta.
  pose proof (firstStep_in_length order lower) as Hfs.
  destruct (reserved !! _); [reflexivity|].
  apply makeIdentName_range_ext. intros Hidx.
  pose proof (slice_after_Index_shorter _ Hidx). apply IH; lia.
Qed.

(** The recursive equation of the source function. *)
Lemma makeIdentName_eq lower :
  makeIdentName lower =
    let ident := firstStep lower in
    match reserved !! ident with
    | Some v => v
    | None => makeIdentName_range makeIdentName ident reservedPrefix
    end.
Proof.
  unfold makeIdentName at 1. cbn [makeIdentName_in]. fold firstStep.
  cbv zeta. destruct (reserved !! firstStep lower); [reflexivity|].
  pose proof (firstStep_in_length reservedPrefix lower) as Hfs.
  fold firstStep in Hfs.
  apply makeIdentName_range_ext. intros Hidx.
  pose proof (slice_after_Index_shorter _ Hidx).
  unfold makeIdentName. apply makeIdentName_in_fuel; lia.
Qed.

Lemma HasPrefix_exclusive s :
  HasPrefix s "map" = true -> HasPrefix s "[]" = false.
Proof.
  destruct s as [|c s]; [done|]. unfold HasPrefix. cbn [String.prefix].
  destruct (ascii_dec "m" c) as [<-|]; [|done]. intros _.
  destruct (ascii_dec "[" "m"); [discriminate | reflexivity].
Qed.

Lemma firstStep_in_swapped lower :
  firstStep_in reservedPrefix_swapped lower = firstStep_in reservedPrefix lower.
Proof.
  unfold firstStep_in, reservedPrefix, reservedPrefix_swapped. simpl.
  by rewrite !orb_false_r, orb_comm.
Qed.

Lemma makeIdentName_range_swapped rec ident :
  makeIdentName_range rec ident reservedPrefix_swapped
  = makeIdentName_range rec ident reservedPrefix.
Proof.
  unfold reservedPrefix_swapped, reservedPrefix. cbn [makeIdentName_range].
  destruct (HasPrefix ident "map") eqn:Em.
  - rewrite (HasPrefix_exclusive _ Em).
    destruct (decide (_ ≠ (-1)%Z)); reflexivity.
  - destruct (HasPrefix ident "[]"); [|reflexivity].
    destruct (decide (_ ≠ (-1)%Z)); reflexivity.
Qed.

(** Both orders in which [range reservedPrefix] can run give the same
    identifier. *)
Lemma makeIdentName_in_swapped fuel lower :
  makeIdentName_in reservedPrefix_swapped fuel lower
  = makeIdentName_in reservedPrefix fuel lower.
Proof.
  revert lower; induction fuel as [|fuel IH]; intros lower; [reflexivity|].
  cbn [makeIdentName_in]. cbv zeta. rewrite firstStep_in_swapped.
  destruct (reserved !! _); [reflexivity|].
  rewrite makeIdentName_range_swapped.
  apply makeIdentName_range_ext. intros _. apply IH.
Qed.

(** ** TypeRenderer *)

(** C4 (as the code has it): a receive-only channel of T renders as
    "<-chan " followed by render(T) and a bidirectional channel as "chan "
    followed by render(T); a send-only channel renders as "chan <-"
    followed by render(T), the marker being appended to the bidirectional
    prefix.  A panic of render(T) is passed on. *)
Theorem getType_ChanType (T : Expr) :
  getType (ChanType ast_RECV T) = (s ← getType T; Ok ("<-chan " +:+ s)) /\
  getType (ChanType ast_SEND T) = (s ← getType T; Ok ("chan <-" +:+ s)) /\
  getType (ChanType (Z.lor ast_SEND ast_RECV) T)
    = (s ← getType T; Ok ("chan " +:+ s)).
Proof. repeat split. Qed.

(** C4 fails as stated: a send-only channel of [int] renders as
    "chan <-int", not as "chan<- " followed by "int". *)
Lemma getType_send_only_text :
  getType t_int = Ok "int" /\
  getType (ChanType ast_SEND t_int) = Ok "chan <-int" /\
  getType (ChanType ast_SEND t_int) <> Ok ("chan<- " +:+ "int").
Proof. repeat split. discriminate. Qed.

Lemma getParamTypes_mapM l :
  getParamTypes l = (ts ← mapM (fun p => getType (Type_ p)) l; Ok (Join ts ", ")).
Proof.
  unfold getParamTypes, getParamTypes_. rewrite for_range_append.
  by destruct (mapM _ l).
Qed.

Lemma getReturnFields_body_eq acc p :
  getReturnFields_body getType acc p = (r ← renderResult p; Ok (acc ++ [r])).
Proof.
  unfold getReturnFields_body, renderResult, spec_result_text.
  destruct (Names p), (getType (Type_ p)); reflexivity.
Qed.

Lemma getReturnFields_loop l acc :
  for_range (getReturnFields_body getType) l acc
  = rs ← mapM renderResult l; Ok (acc ++ rs).
Proof.
  revert acc; induction l as [|p l IH]; intros acc.
  - simpl. by rewrite app_nil_r.
  - cbn [for_range mapM]. rewrite getReturnFields_body_eq.
    destruct (renderResult p) as [r|]; [|reflexivity].
    rewrite !bind_Ok, IH.
    destruct (mapM renderResult l); [|reflexivity].
    rewrite !bind_Ok. by rewrite <- app_assoc.
Qed.

(** ** ZeroValueResolver *)

Section ZeroValue.
Variable underlying : Ident -> option string.

Lemma getBuiltinZeroValue_kind id u :
  underlying id = Some u ->
  getBuiltinZeroValue underlying id = Ok (spec_zero (spec_kind_of u)).
Proof.
  intros Hu. unfold getBuiltinZeroValue, spec_kind_of. rewrite Hu.
  destruct (decide (u ∈ numeric_kinds)) as [Hn|Hn].
  - unfold numeric_kinds in Hn.
    repeat (apply elem_of_cons in Hn as [->|Hn]; [reflexivity|]).
    by apply elem_of_nil in Hn.
  - destruct (decide (u ∈ _)) as [Hd|_].
    { exfalso. apply Hn.
      repeat (apply elem_of_cons in Hd as [->|Hd]; [compute_done|]).
      by apply elem_of_nil in Hd. }
    destruct (decide (u ∈ _)) as [Hd|_].
    { exfalso. apply Hn.
      repeat (apply elem_of_cons in Hd as [->|Hd]; [compute_done|]).
      by apply elem_of_nil in Hd. }
    destruct (decide (u ∈ _)) as [Hd|_].
    { exfalso. apply Hn.
      repeat (apply elem_of_cons in Hd as [->|Hd]; [compute_done|]).
      by apply elem_of_nil in Hd. }
    repeat (destruct (decide _); [reflexivity|]). reflexivity.
Qed.

End ZeroValue.

(** C6: the default-value text of a simple name is determined by the
    resolved underlying kind alone: integer, float and complex kinds give
    "0", boolean "false", string the empty-string literal, every other kind
    "nil"; so two names of the same underlying kind give the same text, and
    a qualified name gives the text of its member component. *)
Theorem getZeroValue_by_kind (underlying : Ident -> option string)
    (a b : Ident) (u : string) (X : Expr) :
  underlying a = Some u -> underlying b = Some u ->
  getZeroValue underlying (EIdent a) = Ok (spec_zero (spec_kind_of u)) /\
  getZeroValue underlying (EIdent a) = getZeroValue underlying (EIdent b) /\
  getZeroValue underlying (SelectorExpr X a) = getZeroValue underlying (EIdent a).
Proof.
  intros Ha Hb. cbn [getZeroValue].
  rewrite (getBuiltinZeroValue_kind _ _ _ Ha), (getBuiltinZeroValue_kind _ _ _ Hb).
  done.
Qed.

(** ** Return projections *)



(** ** NameSynthesizer *)

Lemma HasPrefix_app p x : HasPrefix (p +:+ x) p = true.
Proof.
  unfold HasPrefix. induction p as [|c p IH]; simpl.
  - by destruct x.
  - by destruct (ascii_dec c c).
Qed.

Lemma firstStep_prefixed k v x :
  (k, v) ∈ reservedPrefix -> firstStep (k +:+ x) = k +:+ x.
Proof.
  intros Hk. unfold firstStep, firstStep_in.
  assert (existsb (fun kv => HasPrefix (k +:+ x) kv.1) reservedPrefix = true)
    as ->; [|done].
  apply existsb_exists. exists (k, v). split.
  - by apply list_elem_of_In.
  - apply HasPrefix_app.
Qed.

Lemma Index_slice_prefix x : Index ("[]" +:+ x) "]" = 1%Z.
Proof.
  unfold Index. cbn [String.append String.index String.prefix].
  destruct (ascii_dec "]" "["); [discriminate|].
  destruct (ascii_dec "]" "]"); [|done]. by destruct x.
Qed.

(** C7: for the parameters of [Do(context.Context, map[string]int)] the
    synthesized names are "ctx" and "ivalmap"; in general a text that
    starts with "map" and has a closing bracket derives the stem of what
    follows the first closing bracket, suffixed with "map", and a text that
    starts with "[]" derives the stem of the rest, suffixed with "s". *)
Theorem makeIdentName_ctx_map_slice :
  getParamField params_Do
    = Ok ("ctx context.Context, ivalmap map[string]int", "ctx, ivalmap") /\
  (forall (x : string) (i : nat),
     Index ("map" +:+ x) "]" = Z.of_nat i ->
     makeIdentName ("map" +:+ x)
     = makeIdentName (slice_from ("map" +:+ x) (S i)) +:+ "map") /\
  (forall x : string, makeIdentName ("[]" +:+ x) = makeIdentName x +:+ "s").
Proof.
  split; [reflexivity|]. split.
  - intros x i Hi. rewrite makeIdentName_eq. cbv zeta.
    rewrite (firstStep_prefixed "map" "map") by (apply list_elem_of_here).
    rewrite reserved_prefix_map.
    unfold reservedPrefix. cbn [makeIdentName_range].
    rewrite (HasPrefix_app "map"), Hi.
    rewrite decide_True by lia.
    by replace (Z.to_nat (Z.of_nat i + 1)) with (S i) by lia.
  - intros x. rewrite makeIdentName_eq. cbv zeta.
    rewrite (firstStep_prefixed "[]" "s")
      by (apply list_elem_of_further, list_elem_of_here).
    rewrite reserved_prefix_slice.
    unfold reservedPrefix. cbn [makeIdentName_range].
    assert (HasPrefix ("[]" +:+ x) "map" = false) as ->.
    { unfold HasPrefix. cbn [String.append String.prefix].
      by destruct (ascii_dec "m" "["). }
    rewrite (HasPrefix_app "[]"), Index_slice_prefix.
    rewrite decide_True by lia.
    reflexivity.
Qed.

(** ** The collision table of [getParamField] *)

Lemma occurrences_snoc s t seen :
  occurrences s (seen ++ [t])
  = occurrences s seen + (if decide (t = s) then 1 else 0).
Proof.
  unfold occurrences. rewrite filter_app, length_app. f_equal.
  rewrite filter_cons, filter_nil. by destruct (decide (t = s)).
Qed.

Lemma occurrences_le s seen : occurrences s seen <= length seen.
Proof. apply length_filter. Qed.

Lemma table_ok_empty : table_ok ∅ [].
Proof. intros s. by rewrite lookup_empty. Qed.

Lemma table_ok_first m seen key :
  table_ok m seen -> occurrences key seen = 0 ->
  table_ok (<[key := 0%N]> m) (seen ++ [key]).
Proof.
  intros Hm Hkey s. rewrite occurrences_snoc.
  destruct (decide (key = s)) as [<-|Hne].
  - by rewrite lookup_insert_eq, Hkey.
  - rewrite lookup_insert_ne by done. rewrite Nat.add_0_r. apply Hm.
Qed.

Lemma uint_incr_of_nat j :
  (N.of_nat (S j) < 2 ^ uint_size)%N -> uint_incr (N.of_nat j) = N.of_nat (S j).
Proof.
  intros Hj. unfold uint_incr.
  replace (N.of_nat j + 1)%N with (N.of_nat (S j)) by lia.
  by apply N.mod_small.
Qed.

Lemma table_ok_next m seen key j :
  table_ok m seen -> occurrences key seen = S j ->
  (N.of_nat (S (length seen)) < 2 ^ uint_size)%N ->
  table_ok (<[key := uint_incr (N.of_nat j)]> m) (seen ++ [key]).
Proof.
  intros Hm Hkey Hbound s. rewrite occurrences_snoc.
  pose proof (occurrences_le key seen).
  destruct (decide (key = s)) as [<-|Hne].
  - rewrite lookup_insert_eq, Hkey, uint_incr_of_nat by lia.
    by replace (S j + 1) with (S (S j)) by lia.
  - rewrite lookup_insert_ne by done. rewrite Nat.add_0_r. apply Hm.
Qed.

Lemma getParamField_body_named m params names p n ns t :
  Names p = n :: ns -> getType (Type_ p) = Ok t ->
  getParamField_body (m, params, names) p
  = Ok (m, params ++ [Name n +:+ " " +:+ t], names ++ [Name n]).
Proof. intros Hn Ht. unfold getParamField_body. by rewrite Hn, Ht. Qed.

Lemma getParamField_body_unnamed m params names p t :
  Names p = [] -> getType (Type_ p) = Ok t ->
  getParamField_body (m, params, names) p
  = match m !! spec_stem t with
    | Some i =>
        Ok (<[spec_stem t := uint_incr i]> m,
            params ++ [spec_stem t +:+ fmt_d i +:+ " " +:+ t],
            names ++ [spec_stem t +:+ fmt_d i])
    | None =>
        Ok (<[spec_stem t := 0%N]> m,
            params ++ [spec_stem t +:+ " " +:+ t], names ++ [spec_stem t])
    end.
Proof. intros Hn Ht. unfold getParamField_body. by rewrite Hn, Ht. Qed.

(** The loop of [getParamField], started after the unnamed stems [seen]. *)
Lemma getParamField_loop l :
  forall ts seen m params names,
    mapM (fun p => getType (Type_ p)) l = Ok ts ->
    table_ok m seen ->
    (N.of_nat (length seen + length l) < 2 ^ uint_size)%N ->
    exists m',
      for_range getParamField_body l (m, params, names)
      = Ok (m', params ++ spec_fields (spec_names seen (zip l ts)) ts,
            names ++ spec_names seen (zip l ts)).
Proof.
  induction l as [|p l IH]; intros ts seen m params names Hts Hm Hbound.
  - simpl in Hts. injection Hts as <-. exists m. simpl.
    by rewrite !app_nil_r.
  - cbn [mapM] in Hts.
    destruct (getType (Type_ p)) as [t|] eqn:Ht; [|discriminate].
    rewrite bind_Ok in Hts.
    destruct (mapM _ l) as [ts'|] eqn:Hts'; [|discriminate].
    injection Hts as <-.
    cbn [for_range zip zip_with spec_names].
    simpl in Hbound.
    destruct (Names p) as [|n ns] eqn:Hn.
    + rewrite (getParamField_body_unnamed _ _ _ _ _ Hn Ht).
      specialize (Hm (spec_stem t)) as Hkey.
      destruct (occurrences (spec_stem t) seen) as [|j] eqn:Hocc;
        rewrite Hkey; rewrite bind_Ok.
      * destruct (IH ts' (seen ++ [spec_stem t]) (<[spec_stem t := 0%N]> m)
                    (params ++ [spec_stem t +:+ " " +:+ t])
                    (names ++ [spec_stem t]) eq_refl) as [m' Hm'].
        { by apply table_ok_first. }
        { rewrite length_app. simpl. lia. }
        exists m'. rewrite Hm'. simpl. by rewrite <- !app_assoc.
      * destruct (IH ts' (seen ++ [spec_stem t])
                    (<[spec_stem t := uint_incr (N.of_nat j)]> m)
                    (params ++ [spec_stem t +:+ fmt_d (N.of_nat j) +:+ " " +:+ t])
                    (names ++ [spec_stem t +:+ fmt_d (N.of_nat j)]) eq_refl)
          as [m' Hm'].
        { apply table_ok_next; [done..|lia]. }
        { rewrite length_app. simpl. lia. }
        exists m'. rewrite Hm'. simpl. rewrite <- !app_assoc. simpl.
        do 3 f_equal. f_equal. f_equal. symmetry. apply string_app_assoc.
    + rewrite (getParamField_body_named _ _ _ _ _ _ _ Hn Ht), bind_Ok.
      destruct (IH ts' seen m (params ++ [Name n +:+ " " +:+ t])
                  (names ++ [Name n]) eq_refl Hm) as [m' Hm']; [lia|].
      exists m'. rewrite Hm'. simpl. by rewrite <- !app_assoc.
Qed.

Lemma unnamed_stems_cons p t ps :
  unnamed_stems ((p, t) :: ps)
  = match Names p with [] => [spec_stem t] | _ :: _ => [] end
    ++ unnamed_stems ps.
Proof. unfold unnamed_stems. simpl. by destruct (Names p). Qed.

Lemma spec_names_length ps : forall seen, length (spec_names seen ps) = length ps.
Proof.
  induction ps as [|[p t] ps IH]; intros seen; [reflexivity|].
  simpl. destruct (Names p); simpl; by rewrite IH.
Qed.

(** The name at one position, by the stems of the unnamed parameters
    before it. *)
Lemma spec_names_lookup ps :
  forall seen i p t,
    ps !! i = Some (p, t) -> Names p = [] ->
    spec_names seen ps !! i
    = Some (spec_synth_name (spec_stem t)
              (occurrences (spec_stem t) (seen ++ unnamed_stems (take i ps)))).
Proof.
  induction ps as [|[p0 t0] ps IH]; intros seen i p t Hi Hp; [done|].
  destruct i as [|i].
  - injection Hi as -> ->. simpl. rewrite Hp. simpl.
    by rewrite app_nil_r.
  - simpl in Hi. cbn [take]. rewrite unnamed_stems_cons.
    cbn [spec_names]. destruct (Names p0); simpl.
    + rewrite (IH _ _ _ _ Hi Hp). by rewrite <- app_assoc.
    + by rewrite (IH _ _ _ _ Hi Hp).
Qed.

(** C5: in a parameter list whose types render as [ts], the unnamed
    parameter at position [i] with stem [s] is named [s] when no earlier
    unnamed parameter has stem [s], and [s] followed by [k - 1] when [k]
    earlier unnamed parameters have it: the names of one stem are
    stem, stem0, stem1, ... in declaration order, whatever other stems lie
    between. *)
Theorem getParamField_names_by_stem
    (params : list (Field Expr)) (ts : list string) :
  mapM (fun p => getType (Type_ p)) params = Ok ts ->
  (N.of_nat (length params) < 2 ^ uint_size)%N ->
  exists fields names,
    getParamField_slices params = Ok (fields, names) /\
    getParamField params = Ok (Join fields ", ", Join names ", ") /\
    length names = length params /\
    forall i p t,
      params !! i = Some p -> ts !! i = Some t -> Names p = [] ->
      names !! i
      = Some (spec_synth_name (spec_stem t)
                (occurrences (spec_stem t)
                   (unnamed_stems (take i (zip params ts))))).
Proof.
  intros Hts Hbound.
  destruct (getParamField_loop params ts [] ∅ [] [] Hts table_ok_empty)
    as [m' Hloop]; [simpl; lia|].
  simpl in Hloop.
  exists (spec_fields (spec_names [] (zip params ts)) ts),
         (spec_names [] (zip params ts)).
  assert (Hsl : getParamField_slices params
                = Ok (spec_fields (spec_names [] (zip params ts)) ts,
                      spec_names [] (zip params ts))).
  { unfold getParamField_slices. by rewrite Hloop. }
  pose proof (mapM_Ok_length _ _ _ Hts) as Hlen.
  repeat split.
  - exact Hsl.
  - unfold getParamField. by rewrite Hsl.
  - rewrite spec_names_length, length_zip. lia.
  - intros i p t Hp Ht Hn.
    rewrite (spec_names_lookup _ [] i p t); [done| |done].
    apply lookup_zip_with_Some. eauto.
Qed.

(** The stem is taken from the text [strings.ToLower] gives, also where
    the type name is not an ASCII text: with tables of [unicode] that
    lower capital e-acute to small e-acute and leave the small one as it
    is, the two unnamed parameters of [M(E_acute, e_acute)] share a stem
    and are named e-acute and e-acute followed by 0. *)
Example getParamField_E_acute_e_acute :
  unicode_ToLower E_acute = e_acute ->
  unicode_ToLower e_acute = e_acute ->
  getParamField_slices
    [unnamed (EIdent (ident E_acute)); unnamed (EIdent (ident e_acute))]
  = Ok ([e_acute +:+ " " +:+ E_acute; e_acute +:+ "0 " +:+ e_acute],
        [e_acute; e_acute +:+ "0"]).
Proof.
  intros HE He.
  assert (Hk : makeIdentName e_acute = e_acute) by (vm_compute; reflexivity).
  assert (HTE : ToLower E_acute = e_acute) by exact HE.
  assert (HTe : ToLower e_acute = e_acute) by exact He.
  unfold getParamField_slices.
  cbn [for_range getParamField_body unnamed Names Type_ getType ident Name
       mbind result_bind].
  rewrite HTE, Hk, lookup_empty.
  cbn [mbind result_bind getParamField_body unnamed Names Type_ getType ident
       Name].
  rewrite HTe, Hk, lookup_insert.
  vm_compute. reflexivity.
Qed.

(** ** Slices over shared arrays *)

Section Slices.
Variable growcap : nat -> nat -> nat.
Hypothesis growcap_enough : forall old needed, needed <= growcap old needed.

Lemma slice_ok_backing h s :
  slice_ok h s -> h !! array s = Some (backing h s).
Proof.
  intros (_ & _ & Harr). unfold backing.
  destruct (lookup_lt_is_Some_2 h (array s) Harr) as [a ->]. done.
Qed.

Lemma elems_length h s : slice_ok h s -> length (elems h s) = len s.
Proof.
  intros (Hcap & Hlen & _). unfold elems. rewrite length_take_le; lia.
Qed.

Lemma append_in_place h s x :
  len s < cap s ->
  append growcap h s x
  = (alter (fun a => <[len s := x]> a) (array s) h,
     {| array := array s; len := S (len s); cap := cap s |}).
Proof. intros Hlt. unfold append. by rewrite decide_True. Qed.

Lemma append_grow h s x :
  ~ len s < cap s ->
  append growcap h s x
  = (h ++ [elems h s ++ [x]
           ++ replicate (growcap (cap s) (S (len s)) - S (len s)) None],
     {| array := length h; len := S (len s);
        cap := growcap (cap s) (S (len s)) |}).
Proof. intros Hge. unfold append. by rewrite decide_False. Qed.

(** [append] extends the elements read through the slice it returns. *)
Lemma append_elems h s x :
  slice_ok h s ->
  elems (append growcap h s x).1 (append growcap h s x).2 = elems h s ++ [x] /\
  slice_ok (append growcap h s x).1 (append growcap h s x).2.
Proof.
  intros Hok. pose proof (slice_ok_backing _ _ Hok) as Hback.
  pose proof (elems_length _ _ Hok) as Hlen.
  destruct Hok as (Hcap & Hle & Harr).
  destruct (decide (len s < cap s)) as [Hlt|Hge].
  - rewrite append_in_place by done. cbn [fst snd].
    assert (Hb : backing (alter (fun a => <[len s := x]> a) (array s) h)
                   {| array := array s; len := S (len s); cap := cap s |}
                 = <[len s := x]> (backing h s)).
    { unfold backing at 1. cbn [array].
      by rewrite list_lookup_alter_eq, Hback. }
    split.
    + unfold elems at 1. rewrite Hb. cbn [len].
      rewrite (take_S_r _ _ x) by (apply list_lookup_insert_eq; lia).
      by rewrite take_insert_ge by lia.
    + unfold slice_ok. rewrite Hb, length_insert, length_alter. cbn. lia.
  - rewrite append_grow by done. cbn [fst snd].
    pose proof (growcap_enough (cap s) (S (len s))) as Hg.
    set (new := elems h s ++ [x] ++ replicate _ None).
    assert (Hb : backing (h ++ [new])
                   {| array := length h; len := S (len s);
                      cap := growcap (cap s) (S (len s)) |} = new).
    { unfold backing. cbn [array]. by rewrite list_lookup_middle. }
    split.
    + unfold elems at 1. rewrite Hb. cbn [len]. unfold new.
      rewrite (assoc_L (++)). apply take_app_length'.
      rewrite length_app, Hlen. simpl. lia.
    + unfold slice_ok. rewrite Hb. cbn [array len cap]. unfold new.
      rewrite !length_app, Hlen, length_replicate. simpl. lia.
Qed.

(** An in-place [append] is seen through every other header of the same
    array that reaches the written cell. *)
Lemma append_in_place_aliases h s x s0 :
  slice_ok h s -> len s < cap s ->
  array s0 = array s -> len s < len s0 ->
  elems (append growcap h s x).1 s0 !! len s = Some x.
Proof.
  intros Hok Hlt Harr Hlen0. pose proof (slice_ok_backing _ _ Hok) as Hback.
  destruct Hok as (Hcap & _ & _).
  rewrite append_in_place by done. cbn [fst].
  unfold elems, backing. rewrite Harr, list_lookup_alter_eq, Hback. simpl.
  rewrite lookup_take_lt by done. apply list_lookup_insert_eq. lia.
Qed.

(** ** InterfaceCollector *)

Variable underlying : Ident -> option string.

Lemma getInterfaces_method_skip st x :
  is_FuncType (Type_ x) = false ->
  getInterfaces_method underlying growcap st x = Ok st.
Proof.
  unfold getInterfaces_method. by destruct (Type_ x).
Qed.

Lemma getInterfaces_method_record st x i :
  is_FuncType (Type_ x) = true -> method_record underlying x = Ok i ->
  getInterfaces_method underlying growcap st x
  = Ok {| st_name := st_name st;
          st_result := (append growcap (st_heap st) (st_result st) (Some i)).2;
          st_heap := (append growcap (st_heap st) (st_result st) (Some i)).1;
          st_data := st_data st |}.
Proof.
  unfold getInterfaces_method, method_record.
  destruct (Type_ x); try discriminate. intros _ ->. rewrite bind_Ok.
  by destruct (append _ _ _ _).
Qed.

(** The loop over the members: the records of the function-typed members
    are appended in order, nothing else changes. *)
Lemma getInterfaces_methods_loop Methods :
  forall st recs,
    slice_ok (st_heap st) (st_result st) ->
    mapM (method_record underlying)
      (List.filter (fun x => is_FuncType (Type_ x)) Methods) = Ok recs ->
    exists st',
      for_range (getInterfaces_method underlying growcap) Methods st = Ok st' /\
      st_name st' = st_name st /\ st_data st' = st_data st /\
      slice_ok (st_heap st') (st_result st') /\
      elems (st_heap st') (st_result st')
      = elems (st_heap st) (st_result st) ++ (Some <$> recs).
Proof.
  induction Methods as [|x Methods IH]; intros st recs Hok Hrecs.
  - injection Hrecs as <-. exists st. simpl. by rewrite app_nil_r.
  - cbn [List.filter] in Hrecs. cbn [for_range].
    destruct (is_FuncType (Type_ x)) eqn:Hx.
    + cbn [mapM] in Hrecs.
      destruct (method_record underlying x) as [i|] eqn:Hi; [|discriminate].
      rewrite bind_Ok in Hrecs.
      destruct (mapM _ _) as [recs'|] eqn:Hrecs'; [|discriminate].
      injection Hrecs as <-.
      rewrite (getInterfaces_method_record _ _ _ Hx Hi), bind_Ok.
      destruct (append_elems _ _ (Some i) Hok) as [Hel Hok'].
      destruct (IH (Build_collector (st_name st) _ _ (st_data st)) recs'
                  Hok' eq_refl)
        as (st' & Hrun & Hname & Hdata & Hok'' & Hel').
      exists st'. split; [exact Hrun|]. do 3 (split; [done|]).
      rewrite Hel'. cbn [st_heap st_result]. rewrite Hel.
      by rewrite <- app_assoc.
    + rewrite (getInterfaces_method_skip _ _ Hx), bind_Ok. by apply IH.
Qed.

End Slices.

(** C10: when the callback visits an interface type, the records it
    appends to the method list are those of the function-typed members, in
    order, and the list is stored under the current name; a member of any
    other type, such as an embedded interface given by name, leaves the
    collector as it is and raises nothing, and so does the walk of such a
    name. *)
Theorem getInterfaces_only_function_members
    (underlying : Ident -> option string) (growcap : nat -> nat -> nat)
    (Methods : list (Field Expr)) (st : collector) (recs : list Interface) :
  (forall old needed, needed <= growcap old needed) ->
  slice_ok (st_heap st) (st_result st) ->
  mapM (method_record underlying)
    (List.filter (fun x => is_FuncType (Type_ x)) Methods) = Ok recs ->
  (exists st',
     getInterfaces_fn underlying growcap (NodeExpr (InterfaceType Methods)) st
     = Ok st' /\
     st_data st' !! st_name st = Some (st_result st') /\
     elems (st_heap st') (st_result st')
     = elems (st_heap st) (st_result st) ++ (Some <$> recs)) /\
  (forall x st0,
     x ∈ Methods -> is_FuncType (Type_ x) = false ->
     getInterfaces_method underlying growcap st0 x = Ok st0) /\
  (forall pkg name st0,
     Walk (getInterfaces_fn underlying growcap)
       (SelectorExpr (EIdent pkg) name) st0 = Ok st0 /\
     Walk (getInterfaces_fn underlying growcap) (EIdent name) st0 = Ok st0).
Proof.
  intros Hg Hok Hrecs. split; [|split].
  - destruct (getInterfaces_methods_loop growcap Hg underlying Methods st recs
                Hok Hrecs) as (st' & Hrun & Hname & Hdata & _ & Hel).
    eexists. cbn [getInterfaces_fn]. rewrite Hrun, bind_Ok.
    split; [reflexivity|]. cbn [st_data st_heap st_result].
    split; [|exact Hel]. rewrite Hname. apply lookup_insert_eq.
  - intros x st0 _ Hx. by apply getInterfaces_method_skip.
  - intros pkg name st0. split; reflexivity.
Qed.

(** The whole pass over [type R interface { io.Reader; Close() error }]. *)
Example getInterfaces_file_embedded :
  exists out,
    getInterfaces sample_underlying sample_growcap file_embedded = Ok out /\
    methods_of out "R" = Some [Some record_Close].
Proof. eexists. split; vm_compute; reflexivity. Qed.

(** C1, evaluated: in a file with [type A interface { F() int }] followed
    by [type B interface { G() error }], the slice stored under "A" shares
    its array with the one stored under "B"; after the pass both names
    read the record of [G], and the record of [F] is lost. *)
Theorem getInterfaces_later_interface_overwrites
    (growcap : nat -> nat -> nat) :
  (forall old needed, needed <= growcap old needed) ->
  exists out,
    getInterfaces sample_underlying growcap file_two_interfaces = Ok out /\
    methods_of out "A" = Some [Some record_G] /\
    methods_of out "B" = Some [Some record_G] /\
    methods_of out "A" <> Some [Some record_F].
Proof.
  intros Hg. pose proof (Hg 0 1) as Hc.
  assert (H : match getInterfaces sample_underlying growcap
                      file_two_interfaces with
              | Ok out => methods_of out "A" = Some [Some record_G] /\
                          methods_of out "B" = Some [Some record_G]
              | Panic _ => False
              end).
  { vm_compute. destruct (growcap 0 1) as [|c]; [lia|]. vm_compute. done. }
  destruct (getInterfaces _ _ _) as [out|]; [|done].
  destruct H as [HA HB]. exists out. repeat split; try done.
  rewrite HA. discriminate.
Qed.

(** ** Fields with several names, signatures without results *)

Lemma for_range_ext {A S : Type} (body1 body2 : S -> A -> result S) l s :
  (forall s x, body1 s x = body2 s x) ->
  for_range body1 l s = for_range body2 l s.
Proof.
  intros Hb. revert s; induction l as [|x l IH]; intros s; [reflexivity|].
  simpl. rewrite Hb. destruct (body2 s x); simpl; [apply IH | reflexivity].
Qed.

Lemma for_range_fmap {A B S : Type} (f : A -> B) (body : S -> B -> result S) l s :
  for_range body (f <$> l) s = for_range (fun s x => body s (f x)) l s.
Proof.
  revert s; induction l as [|x l IH]; intros s; [reflexivity|].
  simpl. destruct (body s (f x)); simpl; [apply IH | reflexivity].
Qed.

Lemma getParamField_body_first_name st p :
  getParamField_body st (first_name_only p) = getParamField_body st p.
Proof.
  destruct st as [[m params] names]. unfold getParamField_body.
  cbn [first_name_only Names Type_]. by destruct (Names p).
Qed.

Lemma getReturnFields_body_first_name params p :
  getReturnFields_body getType params (first_name_only p)
  = getReturnFields_body getType params p.
Proof.
  unfold getReturnFields_body.
  cbn [first_name_only Names Type_]. by destruct (Names p).
Qed.

(** C2, evaluated: for [type W interface { Flush() }] the pass panics on
    the nil result list of [Flush], and an empty result list makes
    [makeReturn] panic at [params[0]]; for
    [type I interface { Set(a, b int) error }] the pass ends normally and
    the record of [Set] carries the first name alone, the parameter [b]
    being dropped.  In neither case is an error given to the caller. *)
Theorem getInterfaces_Flush_panics_Set_drops_b :
  getInterfaces sample_underlying sample_growcap file_no_results
  = Panic nil_dereference /\
  makeReturn sample_underlying [] = Panic (index_out_of_range 0 0) /\
  exists out,
    getInterfaces sample_underlying sample_growcap file_two_names = Ok out /\
    methods_of out "I" = Some [Some record_Set].
Proof.
  split; [vm_compute; reflexivity|]. split; [vm_compute; reflexivity|].
  eexists. split; vm_compute; reflexivity.
Qed.

(** ** Names that collide or split *)

(** C3, evaluated: for the unnamed parameters of [Put(X, X, X0)] the
    second and the third synthesized name are both "x0". *)
Theorem getParamField_X_X_X0_duplicate :
  getParamField_slices params_X_X_X0
    = Ok (["x X"; "x0 X"; "x0 X0"], ["x"; "x0"; "x0"]) /\
  getParamField params_X_X_X0 = Ok ("x X, x0 X, x0 X0", "x, x0, x0") /\
  ~ NoDup ["x"; "x0"; "x0"].
Proof.
  split; [vm_compute; reflexivity|]. split; [vm_compute; reflexivity|].
  intros Hnd. apply NoDup_cons in Hnd as [_ Hnd].
  apply NoDup_cons in Hnd as [Hin _]. apply Hin. apply list_elem_of_here.
Qed.

(** C9, evaluated: for the unnamed parameter of
    [Use(func(context.Context, int) error)] the synthesized name is
    "context, int) error"; split at its top-level commas the names text has
    two parts where the types text has one. *)
Theorem makeParam_callback_split :
  makeParam params_callback
    = Ok {| TypeOnly := "func(context.Context, int) error";
            NameOnly := "context, int) error";
            Field_ := "context, int) error func(context.Context, int) error" |} /\
  length (spec_split_top_level 0 EmptyString "context, int) error") = 2 /\
  length (spec_split_top_level 0 EmptyString
            "func(context.Context, int) error") = 1.
Proof. repeat split; vm_compute; reflexivity. Qed.

(** * Further properties *)

(** ** Induction over expressions *)

Lemma Expr_nested_ind (P : Expr -> Prop) :
  (forall id, P (EIdent id)) ->
  (forall X Sel, P X -> P (SelectorExpr X Sel)) ->
  (forall X, P X -> P (StarExpr X)) ->
  (forall Len Elt, (forall l, Len = Some l -> P l) -> P Elt ->
     P (ArrayType Len Elt)) ->
  (forall Key Value, P Key -> P Value -> P (MapType Key Value)) ->
  (forall Params Results,
     Forall (fun f => P (Type_ f)) Params ->
     (forall results, Results = Some results ->
        Forall (fun f => P (Type_ f)) results) ->
     P (FuncType Params Results)) ->
  (forall Dir Value, P Value -> P (ChanType Dir Value)) ->
  (forall Fields, Forall (fun f => P (Type_ f)) Fields -> P (StructType Fields)) ->
  (forall Methods, Forall (fun f => P (Type_ f)) Methods ->
     P (InterfaceType Methods)) ->
  (forall X, P X -> P (SliceExpr X)) ->
  (forall X, P X -> P (ParenExpr X)) ->
  (forall Elt, P Elt -> P (Ellipsis Elt)) ->
  (forall Value, P (BasicLit Value)) ->
  forall e, P e.
Proof.
  intros HId HSel HStar HArr HMap HFunc HChan HStruct HIface HSlice HParen
    HEll HLit.
  fix IH 1. intros e.
  assert (Hfields : forall l : list (Field Expr),
             Forall (fun f => P (Type_ f)) l).
  { fix IHl 1. intros [|f l]; constructor; [apply IH | apply IHl]. }
  destruct e as [id|X Sel|X|Len Elt|Key Value|Params Results|Dir Value
                |Fields|Methods|X|X|Elt|Value].
  - apply HId.
  - apply HSel, IH.
  - apply HStar, IH.
  - apply HArr; [|apply IH].
    destruct Len as [l0|]; intros l Heq; [|discriminate].
    injection Heq as <-. apply IH.
  - apply HMap; apply IH.
  - apply HFunc; [apply Hfields|].
    destruct Results as [rs0|]; intros results Heq; [|discriminate].
    injection Heq as <-. apply Hfields.
  - apply HChan, IH.
  - apply HStruct, Hfields.
  - apply HIface, Hfields.
  - apply HSlice, IH.
  - apply HParen, IH.
  - apply HEll, IH.
  - apply HLit.
Qed.

(** ** When rendering panics *)

Lemma mapM_is_Ok {A B : Type} (f : A -> result B) l :
  (exists ys, mapM f l = Ok ys) <-> Forall (fun x => exists y, f x = Ok y) l.
Proof.
  induction l as [|x l IH]; cbn [mapM].
  - split; [constructor | by eexists].
  - split.
    + intros [ys Hys]. destruct (f x) as [y|] eqn:Hx; [|discriminate].
      rewrite bind_Ok in Hys.
      destruct (mapM f l) as [ys'|]; [|discriminate].
      constructor; [by eexists | apply IH; by eexists].
    + intros H. apply Forall_cons in H as [[y Hy] Hl].
      apply IH in Hl as [ys Hys]. rewrite Hy, bind_Ok, Hys. by eexists.
Qed.

Lemma forallb_renders_Forall (l : list (Field Expr)) :
  Forall (fun f => renders (Type_ f) = true <-> exists s, getType (Type_ f) = Ok s) l ->
  forallb (fun f => renders (Type_ f)) l = true
  <-> exists ts, mapM (fun p => getType (Type_ p)) l = Ok ts.
Proof.
  intros Hl. rewrite mapM_is_Ok, forallb_forall, Forall_forall.
  rewrite Forall_forall in Hl.
  split; intros H x Hx.
  - apply Hl; [done|]. apply H. by apply list_elem_of_In.
  - apply list_elem_of_In in Hx. apply Hl; auto.
Qed.

Lemma renderResult_is_Ok p :
  (exists r, renderResult p = Ok r) <-> exists t, getType (Type_ p) = Ok t.
Proof.
  unfold renderResult. destruct (getType (Type_ p)) as [t|].
  - split; intros _; by eexists.
  - split; intros [? ?]; discriminate.
Qed.

Lemma getReturnFields_is_Ok results :
  (exists s, getReturnFields results = Ok s)
  <-> results <> [] /\ exists ts, mapM (fun p => getType (Type_ p)) results = Ok ts.
Proof.
  unfold getReturnFields, getReturnFields_. rewrite getReturnFields_loop.
  rewrite !mapM_is_Ok. split.
  - intros [s Hs]. destruct (mapM renderResult results) as [rs|] eqn:Hrs;
      [|discriminate]. rewrite !bind_Ok in Hs. cbn [app] in Hs.
    pose proof (mapM_Ok_length _ _ _ Hrs) as Hlen. split.
    + intros ->. injection Hrs as <-. discriminate.
    + assert (Hall : exists rs, mapM renderResult results = Ok rs) by eauto.
      apply mapM_is_Ok in Hall. eapply Forall_impl; [exact Hall|].
      intros p. apply renderResult_is_Ok.
  - intros [Hne Hall].
    assert (Hrs : exists rs, mapM renderResult results = Ok rs).
    { apply mapM_is_Ok. eapply Forall_impl; [exact Hall|].
      intros p. apply renderResult_is_Ok. }
    destruct Hrs as [rs Hrs]. rewrite Hrs, !bind_Ok. cbn [app].
    pose proof (mapM_Ok_length _ _ _ Hrs) as Hlen.
    destruct (decide (1 < length rs)); [by eexists|].
    destruct rs as [|r rs]; [|by eexists].
    destruct results; [done | discriminate].
Qed.

(** X1: [getType] ends normally exactly on the expressions in which every
    function type it reaches has a non-empty result list; on any other
    expression it panics. *)
Theorem getType_renders (e : Expr) :
  renders e = true <-> exists s, getType e = Ok s.
Proof.
  induction e as [id|X Sel IH|X IH|Len Elt _ IH|Key Value IHk IHv
                 |Params Results IHp IHr|Dir Value IH|Fields _|Methods _
                 |X _|X _|Elt _|Value] using Expr_nested_ind;
    cbn [renders getType];
    try (split; intros _; by eexists).
  - rewrite IH. destruct (getType X); split; intros [? ?];
      try discriminate; by eexists.
  - rewrite IH. destruct (getType X); split; intros [? ?];
      try discriminate; by eexists.
  - rewrite IH. destruct (getType Elt); split; intros [? ?];
      try discriminate; by eexists.
  - rewrite andb_true_iff, IHk, IHv.
    destruct (getType Key), (getType Value); split;
      try (intros [[? ?] [? ?]]); try (intros [? ?]);
      try discriminate; try (split; by eexists); by eexists.
  - fold (getParamTypes Params). rewrite getParamTypes_mapM.
    rewrite andb_true_iff, (forallb_renders_Forall _ IHp).
    destruct Results as [results|].
    + fold (getReturnFields results).
      rewrite andb_true_iff, negb_true_iff, bool_decide_eq_false.
      rewrite (forallb_renders_Forall _ (IHr results eq_refl)).
      rewrite <- getReturnFields_is_Ok.
      destruct (mapM _ Params), (getReturnFields results); split;
        try (intros [[? ?] [? ?]]); try (intros [? ?]);
        try discriminate; try (split; by eexists); by eexists.
    + split; [intros [_ [=]]|].
      destruct (mapM _ Params); intros [? ?]; discriminate.
  - rewrite IH. destruct (getType Value); split; intros [? ?];
      try discriminate; by eexists.
Qed.

(** ** Panics of the collector *)

Lemma bind_panics {A B : Type} (m : result A) (k : A -> result B) :
  (forall a, exists p, k a = Panic p) -> exists p, m ≫= k = Panic p.
Proof. intros Hk. destruct m as [a|p]; [apply Hk | by eexists]. Qed.

Lemma for_range_panics {A S : Type} (body : S -> A -> result S) l x :
  x ∈ l -> (forall s, exists p, body s x = Panic p) ->
  forall s, exists p, for_range body l s = Panic p.
Proof.
  intros Hx Hbody. induction l as [|a l IH]; intros s.
  - by apply elem_of_nil in Hx.
  - cbn [for_range]. apply elem_of_cons in Hx as [<-|Hx].
    + destruct (Hbody s) as [p ->]. by eexists.
    + apply bind_panics. by apply IH.
Qed.

Lemma new_Interface_without_results underlying x Params Results :
  Results = None \/ Results = Some [] ->
  exists p, new_Interface underlying x Params Results = Panic p.
Proof.
  intros HR. unfold new_Interface.
  apply bind_panics. intros n. apply bind_panics. intros param.
  destruct HR as [->| ->]; [by eexists|]. rewrite bind_Ok.
  by eexists.
Qed.

Lemma panic_bind {A B : Type} (m : result A) (k : A -> result B) :
  (exists p, m = Panic p) -> exists p, m ≫= k = Panic p.
Proof. intros [p ->]. by eexists. Qed.

Lemma getInterfaces_method_without_results underlying growcap x Params Results :
  Type_ x = FuncType Params Results ->
  Results = None \/ Results = Some [] ->
  forall st, exists p, getInterfaces_method underlying growcap st x = Panic p.
Proof.
  intros HT HR st. unfold getInterfaces_method. rewrite HT.
  apply panic_bind. by apply new_Interface_without_results.
Qed.

(** X2: a file that declares an interface with a method whose signature
    has no results, or an empty result list, makes [getInterfaces] panic,
    whatever else the file holds. *)
Theorem getInterfaces_panics_without_results
    (underlying : Ident -> option string) (growcap : nat -> nat -> nat)
    (f : File) (name : Ident) (Methods : list (Field Expr))
    (x : Field Expr) (Params : list (Field Expr))
    (Results : option (list (Field Expr))) :
  declares_interface f name Methods ->
  x ∈ Methods -> Type_ x = FuncType Params Results ->
  Results = None \/ Results = Some [] ->
  exists p, getInterfaces underlying growcap f = Panic p.
Proof.
  intros (Specs & HSpecs & Hts) Hx HT HR.
  unfold getInterfaces. cbn [make_empty]. apply panic_bind.
  unfold walkFile. cbn [getInterfaces_fn]. rewrite !bind_Ok.
  apply (for_range_panics _ _ _ HSpecs). intros st.
  cbn [getInterfaces_fn]. rewrite bind_Ok.
  apply (for_range_panics _ _ _ Hts). clear st. intros st.
  unfold walkSpec.
  cbn [getInterfaces_fn TypeSpec_Type TypeSpec_Name]. rewrite !bind_Ok.
  cbn [Walk]. apply panic_bind. cbn [getInterfaces_fn]. apply panic_bind.
  apply (for_range_panics _ _ _ Hx).
  by apply (getInterfaces_method_without_results _ _ _ Params Results).
Qed.

(** ** The range of the zero values *)

(** X3: [getZeroValue] either gives one of the four texts "0", "false",
    the empty-string literal and "nil", or panics with a nil dereference;
    it panics only on a simple or qualified name whose identifier the type
    checker left unresolved. *)
Theorem getZeroValue_range (underlying : Ident -> option string) (e : Expr) :
  (exists z, getZeroValue underlying e = Ok z /\ z ∈ zero_texts) \/
  (getZeroValue underlying e = Panic nil_dereference /\
   exists id, underlying id = None /\
              (e = EIdent id \/ exists X, e = SelectorExpr X id)).
Proof.
  assert (Hid : forall id,
    (exists z, getBuiltinZeroValue underlying id = Ok z /\ z ∈ zero_texts) \/
    (getBuiltinZeroValue underlying id = Panic nil_dereference /\
     underlying id = None)).
  { intros id. unfold getBuiltinZeroValue, zero_texts.
    destruct (underlying id) as [u|]; [left|by right].
    repeat (destruct (decide _);
            [eexists; split; [reflexivity|];
             repeat first [apply list_elem_of_here | apply list_elem_of_further]|]).
    eexists; split; [reflexivity|].
    repeat first [apply list_elem_of_here | apply list_elem_of_further]. }
  assert (Hnil : "nil" ∈ zero_texts).
  { unfold zero_texts.
    repeat first [apply list_elem_of_here | apply list_elem_of_further]. }
  destruct e; cbn [getZeroValue]; try (left; by eexists).
  - destruct (Hid id) as [?|[HP Hu]]; [by left|right].
    split; [done|]. exists id. eauto.
  - destruct (Hid Sel) as [?|[HP Hu]]; [by left|right].
    split; [done|]. exists Sel. eauto.
Qed.

(** ** Stems *)

(** X4: [makeIdentName] sends every key of the table [reserved] to the
    stem the table gives for it. *)
Theorem makeIdentName_reserved (k v : string) :
  reserved !! k = Some v -> makeIdentName k = v.
Proof.
  unfold reserved. intros H%elem_of_list_to_map_2.
  repeat (apply elem_of_cons in H as [[= -> ->]|H];
          [vm_compute; reflexivity|]).
  by apply elem_of_nil in H.
Qed.

Lemma last_byte_app x c r :
  last_byte (x +:+ String c r) = last_byte (String c r).
Proof.
  induction x as [|a x IH]; [reflexivity|].
  change (String a x +:+ String c r) with (String a (x +:+ String c r)).
  rewrite <- IH. cbn [last_byte].
  destruct x; reflexivity.
Qed.

Lemma reserved_keys_last_byte k v :
  reserved !! k = Some v ->
  exists c, last_byte k = Some c /\
            c ∈ ["l"; "t"; "8"; "6"; "2"; "4"; "g"; "}"]%char.
Proof.
  unfold reserved. intros H%elem_of_list_to_map_2.
  repeat (apply elem_of_cons in H as [[= -> ->]|H];
          [eexists; split; [reflexivity|];
           repeat first [apply list_elem_of_here | apply list_elem_of_further]|]).
  by apply elem_of_nil in H.
Qed.

Lemma reserved_suffixed x k v :
  (k, v) ∈ reservedPrefix -> reserved !! (x +:+ v) = None.
Proof.
  intros Hkv. destruct (reserved !! (x +:+ v)) as [w|] eqn:E; [|done].
  apply reserved_keys_last_byte in E as (c & Hc & Hin). exfalso.
  unfold reservedPrefix in Hkv.
  apply elem_of_cons in Hkv as [[= -> ->]|Hkv].
  { change "map" with ("ma" +:+ "p") in Hc.
    rewrite <- string_app_assoc, last_byte_app in Hc. injection Hc as <-.
    repeat (apply elem_of_cons in Hin as [Hin|Hin]; [discriminate|]).
    by apply elem_of_nil in Hin. }
  apply elem_of_cons in Hkv as [[= -> ->]|Hkv]; [|by apply elem_of_nil in Hkv].
  rewrite last_byte_app in Hc. injection Hc as <-.
  repeat (apply elem_of_cons in Hin as [Hin|Hin]; [discriminate|]).
  by apply elem_of_nil in Hin.
Qed.

Lemma reserved_values_not_keys k v :
  reserved !! k = Some v -> reserved !! v = None.
Proof.
  unfold reserved at 1. intros H%elem_of_list_to_map_2.
  repeat (apply elem_of_cons in H as [[= -> ->]|H];
          [vm_compute; reflexivity|]).
  by apply elem_of_nil in H.
Qed.

Lemma makeIdentName_range_not_reserved rec ident entries :
  reserved !! ident = None ->
  (forall k v, (k, v) ∈ entries -> (k, v) ∈ reservedPrefix) ->
  reserved !! makeIdentName_range rec ident entries = None.
Proof.
  intros Hident. induction entries as [|[k v] entries IH]; intros Hsub.
  - exact Hident.
  - cbn [makeIdentName_range].
    assert (Hrest : reserved !! makeIdentName_range rec ident entries = None).
    { apply IH. intros k' v' Hin. apply Hsub. by apply list_elem_of_further. }
    destruct (HasPrefix ident k); [|exact Hrest].
    destruct (decide _); [|exact Hrest].
    apply (reserved_suffixed _ k). apply Hsub. apply list_elem_of_here.
Qed.

(** X5: the stem [makeIdentName] gives is never a key of the table
    [reserved].  Nothing is said of type names outside the table: "byte",
    "rune" and "uintptr" are not keys of it, and are their own stem. *)
Theorem makeIdentName_not_reserved (lower : string) :
  reserved !! makeIdentName lower = None.
Proof.
  rewrite makeIdentName_eq. cbv zeta.
  destruct (reserved !! firstStep lower) as [v|] eqn:E.
  - by apply reserved_values_not_keys in E.
  - by apply makeIdentName_range_not_reserved.
Qed.

Example makeIdentName_byte_rune_uintptr :
  makeIdentName "byte" = "byte" /\ makeIdentName "rune" = "rune" /\
  makeIdentName "uintptr" = "uintptr".
Proof. repeat split; vm_compute; reflexivity. Qed.

(** X6: the identifier does not depend on the order in which the loops
    over [reservedPrefix] visit its two entries: whichever order [range]
    takes, [firstStep], the loop of [makeIdentName] and [makeIdentName]
    itself give the same text. *)
Theorem reservedPrefix_order_irrelevant (order : list (string * string)) :
  Permutation reservedPrefix order ->
  (forall lower, firstStep_in order lower = firstStep lower) /\
  (forall rec ident,
     makeIdentName_range rec ident order
     = makeIdentName_range rec ident reservedPrefix) /\
  (forall lower,
     makeIdentName_in order (S (String.length lower)) lower
     = makeIdentName lower).
Proof.
  intros Hperm. apply Permutation_length_2_inv in Hperm as [->| ->].
  - repeat split.
  - fold reservedPrefix_swapped. repeat split.
    + apply firstStep_in_swapped.
    + apply makeIdentName_range_swapped.
    + intros lower. apply makeIdentName_in_swapped.
Qed.

(** X7: [makeIdentName] ends on every text: [firstStep] never lengthens
    its argument, the text handed to the recursive call is strictly shorter
    than the identifier it is cut from, and so the function obeys its
    recursive definition with no bound on the depth. *)
Theorem makeIdentName_recursion (lower : string) :
  String.length (firstStep lower) <= String.length lower /\
  (Index (firstStep lower) "]" ≠ (-1)%Z ->
   String.length (slice_from (firstStep lower)
                    (Z.to_nat (Index (firstStep lower) "]" + 1)))
   < String.length lower) /\
  (forall fuel, String.length lower < fuel ->
     makeIdentName_in reservedPrefix fuel lower = makeIdentName lower) /\
  makeIdentName lower
  = match reserved !! firstStep lower with
    | Some v => v
    | None => makeIdentName_range makeIdentName (firstStep lower) reservedPrefix
    end.
Proof.
  pose proof (firstStep_in_length reservedPrefix lower) as Hfs.
  fold firstStep in Hfs. repeat split.
  - exact Hfs.
  - intros Hidx. pose proof (slice_after_Index_shorter _ Hidx). lia.
  - intros fuel Hfuel. unfold makeIdentName.
    apply makeIdentName_in_fuel; lia.
  - apply makeIdentName_eq.
Qed.

(** ** Qualified names *)

Lemma index_byte_cons b c s :
  String.index 0 (String b EmptyString) (String c s)
  = if ascii_dec b c then Some 0
    else S <$> String.index 0 (String b EmptyString) s.
Proof.
  cbn [String.index String.prefix].
  destruct (ascii_dec b c); [by destruct s|].
  by destruct (String.index 0 (String b EmptyString) s).
Qed.

Lemma Index_qualified p t :
  Index p "." = (-1)%Z ->
  Index (p +:+ "." +:+ t) "." = Z.of_nat (String.length p).
Proof.
  unfold Index. induction p as [|c p IH].
  - intros _. change (EmptyString +:+ "." +:+ t) with (String "."%char t).
    rewrite index_byte_cons.
    by destruct (ascii_dec "." ".").
  - change (String c p +:+ "." +:+ t) with (String c (p +:+ "." +:+ t)).
    rewrite !index_byte_cons. destruct (ascii_dec "." c); [done|].
    destruct (String.index 0 "." p) as [i|] eqn:Hp; [done|].
    intros _. specialize (IH eq_refl).
    destruct (String.index 0 "." (p +:+ "." +:+ t)) as [j|]; [|lia].
    cbn [fmap option_fmap option_map String.length]. lia.
Qed.

Lemma slice_from_app p t : slice_from (p +:+ t) (String.length p) = t.
Proof. induction p as [|c p IH]; [reflexivity | exact IH]. Qed.

Lemma Index_not_found_nonempty_dot p :
  Index p "." = (-1)%Z -> forall c s, p = String c s -> c <> "."%char.
Proof.
  intros Hp c s -> ->. unfold Index in Hp. rewrite index_byte_cons in Hp.
  by destruct (ascii_dec "." ".").
Qed.

Lemma string_app_cons c p t : String c p +:+ t = String c (p +:+ t).
Proof. reflexivity. Qed.

Lemma string_app_nil t : EmptyString +:+ t = t.
Proof. reflexivity. Qed.

Lemma HasPrefix_qualified p t k v :
  (k, v) ∈ reservedPrefix ->
  Index p "." = (-1)%Z -> HasPrefix p k = false ->
  HasPrefix (p +:+ "." +:+ t) k = false.
Proof.
  intros Hk Hdot. unfold reservedPrefix in Hk.
  assert (Hk' : k = "map" \/ k = "[]").
  { apply elem_of_cons in Hk as [[= -> _]|Hk]; [by left|].
    apply elem_of_cons in Hk as [[= -> _]|Hk]; [by right|].
    by apply elem_of_nil in Hk. }
  clear Hk. unfold HasPrefix.
  destruct Hk' as [->| ->].
  - destruct p as [|c1 [|c2 [|c3 p]]];
      rewrite ?string_app_cons, ?string_app_nil; cbn [String.prefix];
      repeat (destruct (ascii_dec _ _); try discriminate; try done);
      by destruct p.
  - destruct p as [|c1 [|c2 p]];
      rewrite ?string_app_cons, ?string_app_nil; cbn [String.prefix];
      repeat (destruct (ascii_dec _ _); try discriminate; try done);
      by destruct p.
Qed.

Lemma firstStep_qualified p t :
  Index p "." = (-1)%Z ->
  HasPrefix p "map" = false -> HasPrefix p "[]" = false ->
  firstStep (p +:+ "." +:+ t) = if decide (t = "context") then "ctx" else t.
Proof.
  intros Hdot Hmap Hslice. unfold firstStep, firstStep_in, reservedPrefix.
  cbn [existsb fst].
  rewrite (HasPrefix_qualified p t "map" "map") by
    first [apply list_elem_of_here | done].
  rewrite (HasPrefix_qualified p t "[]" "s") by
    first [apply list_elem_of_further, list_elem_of_here | done].
  cbn [orb]. rewrite Index_qualified by done.
  rewrite decide_True by lia.
  replace (Z.to_nat (Z.of_nat (String.length p) + 1))
    with (String.length (p +:+ ".")).
  - by rewrite <- string_app_assoc, slice_from_app.
  - clear. induction p as [|c p IH]; [reflexivity|].
    change (String c p +:+ ".") with (String c (p +:+ ".")).
    cbn [String.length]. lia.
Qed.

Lemma firstStep_unqualified t :
  Index t "." = (-1)%Z -> firstStep t = t.
Proof.
  intros Hdot. unfold firstStep, firstStep_in.
  destruct (existsb _ _); [reflexivity|].
  by rewrite decide_False by (intros H; by apply H).
Qed.

(** X8: a package qualifier is dropped: when [p] holds no "." and starts
    with neither "map" nor "[]", and [t] holds no ".", the text [p.t] gets
    the stem of [t], except that [p.context] gets "ctx". *)
Theorem makeIdentName_qualified (p t : string) :
  Index p "." = (-1)%Z ->
  HasPrefix p "map" = false -> HasPrefix p "[]" = false ->
  Index t "." = (-1)%Z ->
  makeIdentName (p +:+ "." +:+ t)
  = if decide (t = "context") then "ctx" else makeIdentName t.
Proof.
  intros Hdot Hmap Hslice Ht.
  rewrite makeIdentName_eq. cbv zeta.
  rewrite firstStep_qualified by done.
  destruct (decide (t = "context")) as [->|Hne]; [vm_compute; reflexivity|].
  rewrite (makeIdentName_eq t). cbv zeta.
  by rewrite firstStep_unqualified.
Qed.

(** ** The three projections of a parameter list *)

Lemma getParamField_body_shape m params names p t :
  getType (Type_ p) = Ok t ->
  exists m1 n1,
    getParamField_body (m, params, names) p
    = Ok (m1, params ++ [n1 +:+ " " +:+ t], names ++ [n1]).
Proof.
  intros Ht. destruct (Names p) as [|n ns] eqn:Hn.
  - rewrite (getParamField_body_unnamed _ _ _ _ _ Hn Ht).
    destruct (m !! spec_stem t) as [i|].
    + eexists _, (spec_stem t +:+ fmt_d i). by rewrite string_app_assoc.
    + by eexists _, _.
  - rewrite (getParamField_body_named _ _ _ _ _ _ _ Hn Ht). by eexists _, _.
Qed.

Lemma getParamField_body_panic st p q :
  getType (Type_ p) = Panic q -> getParamField_body st p = Panic q.
Proof.
  intros Ht. destruct st as [[m params] names]. unfold getParamField_body.
  rewrite Ht. by destruct (Names p).
Qed.

Lemma getParamField_loop_Ok l :
  forall ts m params names,
    mapM (fun p => getType (Type_ p)) l = Ok ts ->
    exists m' ns,
      length ns = length l /\
      for_range getParamField_body l (m, params, names)
      = Ok (m', params ++ spec_fields ns ts, names ++ ns).
Proof.
  induction l as [|p l IH]; intros ts m params names Hts.
  - injection Hts as <-. exists m, []. simpl. by rewrite !app_nil_r.
  - cbn [mapM] in Hts.
    destruct (getType (Type_ p)) as [t|] eqn:Ht; [|discriminate].
    rewrite bind_Ok in Hts.
    destruct (mapM _ l) as [ts'|] eqn:Hts'; [|discriminate].
    injection Hts as <-.
    destruct (getParamField_body_shape m params names p t Ht)
      as (m1 & n1 & Hbody).
    destruct (IH ts' m1 (params ++ [n1 +:+ " " +:+ t]) (names ++ [n1]) eq_refl)
      as (m' & ns & Hlen & Hrun).
    exists m', (n1 :: ns). split; [simpl; lia|].
    cbn [for_range]. rewrite Hbody, bind_Ok, Hrun.
    unfold spec_fields. cbn [zip_with]. by rewrite <- !app_assoc.
Qed.

Lemma getParamField_loop_Panic l :
  forall q st,
    mapM (fun p => getType (Type_ p)) l = Panic q ->
    for_range getParamField_body l st = Panic q.
Proof.
  induction l as [|p l IH]; intros q st Hts; [discriminate|].
  cbn [mapM] in Hts. cbn [for_range].
  destruct (getType (Type_ p)) as [t|] eqn:Ht.
  - rewrite bind_Ok in Hts. destruct st as [[m params] names].
    destruct (getParamField_body_shape m params names p t Ht)
      as (m1 & n1 & ->).
    rewrite bind_Ok. apply IH.
    destruct (mapM _ l); [discriminate | exact Hts].
  - injection Hts as <-. by rewrite (getParamField_body_panic _ _ _ Ht).
Qed.

(** X9: [makeParam] panics exactly when the rendering of a parameter type
    panics, with the panic of the first such type; otherwise its three
    texts are the comma-joins of three lists with one entry per field, the
    entry of [Field] being the name, a space and the type of the same
    position. *)
Theorem makeParam_projections (list : list (Field Expr)) :
  (forall ts, mapM (fun p => getType (Type_ p)) list = Ok ts ->
     exists ns,
       length ns = length list /\ length ts = length list /\
       makeParam list
       = Ok {| TypeOnly := Join ts ", ";
               NameOnly := Join ns ", ";
               Field_ := Join (spec_fields ns ts) ", " |}) /\
  (forall q, mapM (fun p => getType (Type_ p)) list = Panic q ->
     makeParam list = Panic q).
Proof.
  split.
  - intros ts Hts.
    destruct (getParamField_loop_Ok list ts ∅ [] [] Hts)
      as (m' & ns & Hlen & Hrun).
    exists ns. split; [done|]. split; [by apply mapM_Ok_length in Hts|].
    unfold makeParam, getParamField, getParamField_slices.
    rewrite Hrun, getParamTypes_mapM, Hts. reflexivity.
  - intros q Hts.
    unfold makeParam, getParamField, getParamField_slices.
    by rewrite (getParamField_loop_Panic _ _ _ Hts).
Qed.

Lemma first_names_cons p l :
  first_names (p :: l)
  = match Names p with
    | n :: _ => Name n :: first_names l
    | [] => first_names l
    end.
Proof. unfold first_names. simpl. by destruct (Names p). Qed.

Lemma getParamField_loop_named l :
  forall ts m params names,
    Forall (fun p => Names p <> []) l ->
    mapM (fun p => getType (Type_ p)) l = Ok ts ->
    for_range getParamField_body l (m, params, names)
    = Ok (m, params ++ spec_fields (first_names l) ts,
          names ++ first_names l).
Proof.
  induction l as [|p l IH]; intros ts m params names Hnamed Hts.
  - injection Hts as <-. simpl. by rewrite !app_nil_r.
  - apply Forall_cons in Hnamed as [Hp Hl]. cbn [mapM] in Hts.
    destruct (getType (Type_ p)) as [t|] eqn:Ht; [|discriminate].
    rewrite bind_Ok in Hts.
    destruct (mapM _ l) as [ts'|] eqn:Hts'; [|discriminate].
    injection Hts as <-.
    destruct (Names p) as [|n ns] eqn:Hn; [done|].
    cbn [for_range].
    rewrite (getParamField_body_named _ _ _ _ _ _ _ Hn Ht), bind_Ok.
    rewrite (IH ts' _ _ _ Hl eq_refl).
    rewrite first_names_cons, Hn. unfold spec_fields. cbn [zip_with].
    by rewrite <- !app_assoc.
Qed.

(** X10: in a parameter list in which every field is named, the names
    are the first declared names, in order, each field entry is that name,
    a space and the rendered type, and the collision table is never
    written. *)
Theorem getParamField_named (params : list (Field Expr)) (ts : list string) :
  Forall (fun p => Names p <> []) params ->
  mapM (fun p => getType (Type_ p)) params = Ok ts ->
  for_range getParamField_body params (∅, [], [])
    = Ok (∅, spec_fields (first_names params) ts, first_names params) /\
  getParamField params
    = Ok (Join (spec_fields (first_names params) ts) ", ",
          Join (first_names params) ", ").
Proof.
  intros Hnamed Hts.
  pose proof (getParamField_loop_named params ts ∅ [] [] Hnamed Hts) as Hrun.
  simpl in Hrun. split; [exact Hrun|].
  unfold getParamField, getParamField_slices. by rewrite Hrun.
Qed.

(** ** Names of one stem do not collide *)

Lemma fmt_d_inj a b : fmt_d a = fmt_d b -> a = b.
Proof.
  unfold fmt_d. intros H.
  assert (Hnn : forall n, N.to_uint n <> Decimal.Nil).
  { intros [|p]; [discriminate|]. apply DecimalPos.Unsigned.to_uint_nonnil. }
  pose proof (NilZero.usu _ (Hnn a)) as Ha.
  pose proof (NilZero.usu _ (Hnn b)) as Hb.
  rewrite H, Hb in Ha. injection Ha as Ha.
  by apply DecimalN.Unsigned.to_uint_inj.
Qed.

Lemma string_app_nil_r_inv (s x : string) : s = s +:+ x -> x = EmptyString.
Proof.
  induction s as [|c s IH]; [done|].
  rewrite string_app_cons. intros [= H]. by apply IH.
Qed.

Lemma fmt_d_nonempty a : fmt_d a <> EmptyString.
Proof.
  unfold fmt_d. intros H.
  assert (Hnn : N.to_uint a <> Decimal.Nil).
  { destruct a as [|p]; [discriminate|].
    apply DecimalPos.Unsigned.to_uint_nonnil. }
  pose proof (NilZero.usu _ Hnn) as Ha. rewrite H in Ha. discriminate.
Qed.

Lemma spec_synth_name_inj stem a b :
  spec_synth_name stem a = spec_synth_name stem b -> a = b.
Proof.
  destruct a as [|a], b as [|b]; cbn [spec_synth_name]; intros H.
  - reflexivity.
  - apply string_app_nil_r_inv in H. by apply fmt_d_nonempty in H.
  - symmetry in H. apply string_app_nil_r_inv in H.
    by apply fmt_d_nonempty in H.
  - apply String.app_inj, fmt_d_inj in H. lia.
Qed.

Lemma occurrences_app s l1 l2 :
  occurrences s (l1 ++ l2) = occurrences s l1 + occurrences s l2.
Proof. unfold occurrences. by rewrite filter_app, length_app. Qed.

Lemma unnamed_stems_app ps qs :
  unnamed_stems (ps ++ qs) = unnamed_stems ps ++ unnamed_stems qs.
Proof. unfold unnamed_stems. apply omap_app. Qed.

Lemma unnamed_stems_single p t :
  Names p = [] -> unnamed_stems [(p, t)] = [spec_stem t].
Proof. intros Hp. by rewrite unnamed_stems_cons, Hp. Qed.

Lemma occurrences_single s : occurrences s [s] = 1.
Proof. unfold occurrences. by rewrite filter_cons, decide_True. Qed.

Lemma occurrences_take_lt ps i j p t :
  ps !! i = Some (p, t) -> Names p = [] -> i < j ->
  occurrences (spec_stem t) (unnamed_stems (take i ps))
  < occurrences (spec_stem t) (unnamed_stems (take j ps)).
Proof.
  intros Hi Hp Hij.
  replace j with (S i + (j - S i)) by lia.
  rewrite <- (take_drop (S i) ps) at 2.
  rewrite take_app_add' by (rewrite length_take_le; [done|];
                            apply lookup_lt_Some in Hi; lia).
  rewrite (take_S_r _ _ _ Hi).
  rewrite !unnamed_stems_app, !occurrences_app.
  rewrite (unnamed_stems_single _ _ Hp), occurrences_single. lia.
Qed.

(** X11: two unnamed parameters of one parameter list that derive the
    same stem never get the same name. *)
Theorem getParamField_same_stem_distinct
    (params : list (Field Expr)) (ts fields names : list string)
    (i j : nat) (p q : Field Expr) (t u : string) :
  mapM (fun p => getType (Type_ p)) params = Ok ts ->
  (N.of_nat (length params) < 2 ^ uint_size)%N ->
  getParamField_slices params = Ok (fields, names) ->
  i < j ->
  params !! i = Some p -> ts !! i = Some t -> Names p = [] ->
  params !! j = Some q -> ts !! j = Some u -> Names q = [] ->
  spec_stem t = spec_stem u ->
  names !! i <> names !! j.
Proof.
  intros Hts Hbound Hsl Hij Hp Ht Hnp Hq Hu Hnq Hstem.
  destruct (getParamField_loop params ts [] ∅ [] [] Hts table_ok_empty)
    as [m' Hloop]; [simpl; lia|].
  unfold getParamField_slices in Hsl. rewrite Hloop in Hsl.
  simpl in Hsl. injection Hsl as _ <-.
  assert (Hzi : zip params ts !! i = Some (p, t))
    by (apply lookup_zip_with_Some; eauto).
  assert (Hzj : zip params ts !! j = Some (q, u))
    by (apply lookup_zip_with_Some; eauto).
  rewrite (spec_names_lookup _ [] i p t Hzi Hnp).
  rewrite (spec_names_lookup _ [] j q u Hzj Hnq).
  cbn [app]. rewrite <- Hstem. intros [= H%spec_synth_name_inj].
  pose proof (occurrences_take_lt _ i j p t Hzi Hnp Hij). lia.
Qed.

(** ** The walk below an interface *)

Lemma for_range_app {A S : Type} (body : S -> A -> result S) l1 l2 s :
  for_range body (l1 ++ l2) s = for_range body l1 s ≫= for_range body l2.
Proof.
  revert s; induction l1 as [|x l1 IH]; intros s; simpl; [reflexivity|].
  destruct (body s x); simpl; [apply IH | reflexivity].
Qed.

Lemma for_range_id {A S : Type} (body : S -> A -> result S) l s :
  Forall (fun x => body s x = Ok s) l -> for_range body l s = Ok s.
Proof.
  induction 1 as [|x l Hx _ IH]; [reflexivity|].
  cbn [for_range]. by rewrite Hx, bind_Ok.
Qed.


Section Walk.
Variable underlying : Ident -> option string.
Variable growcap : nat -> nat -> nat.
Hypothesis growcap_enough : forall old needed, needed <= growcap old needed.








End Walk.

Lemma getInterfaces_fn_NodeOther underlying growcap st :
  getInterfaces_fn underlying growcap NodeOther st = Ok st.
Proof. reflexivity. Qed.

Lemma getInterfaces_fn_Ident underlying growcap i st :
  getInterfaces_fn underlying growcap (NodeExpr (EIdent i)) st = Ok st.
Proof. reflexivity. Qed.


(** ** Splitting the projections at top-level commas *)

Lemma string_app_nil_r (s : string) : s +:+ EmptyString = s.
Proof.
  induction s as [|c s IH]; [reflexivity|].
  by rewrite string_app_cons, IH.
Qed.

Lemma passes_nil : passes EmptyString.
Proof. intros d cur rest. by rewrite string_app_nil, string_app_nil_r. Qed.

Lemma passes_app a b : passes a -> passes b -> passes (a +:+ b).
Proof.
  intros Ha Hb d cur rest.
  by rewrite string_app_assoc, Ha, Hb, string_app_assoc.
Qed.

Lemma passes_byte c : plain_byte c = true -> passes (String c EmptyString).
Proof.
  unfold plain_byte. intros H d cur rest.
  apply andb_true_iff in H as [H Hc]. apply andb_true_iff in H as [Hcomma Ho].
  apply negb_true_iff in Hcomma, Ho, Hc.
  rewrite string_app_cons, string_app_nil. cbn [spec_split_top_level].
  by rewrite Hcomma, Ho, Hc.
Qed.

Lemma passes_plain_text s : plain_text s = true -> passes s.
Proof.
  induction s as [|c s IH]; [intros _; apply passes_nil|].
  cbn [plain_text]. intros [Hc Hs]%andb_true_iff.
  change (String c s) with (String c EmptyString +:+ s).
  apply passes_app; [by apply passes_byte | by apply IH].
Qed.

Lemma passes_inside_of_passes s : passes s -> passes_inside s.
Proof. intros H d cur rest. apply H. Qed.

Lemma passes_inside_app a b :
  passes_inside a -> passes_inside b -> passes_inside (a +:+ b).
Proof.
  intros Ha Hb d cur rest.
  by rewrite string_app_assoc, Ha, Hb, string_app_assoc.
Qed.

Lemma passes_inside_separator : passes_inside ", ".
Proof.
  apply (passes_inside_app "," " ").
  - intros d cur rest. reflexivity.
  - by apply passes_inside_of_passes, passes_byte.
Qed.

Lemma passes_bracketed o c s :
  (o, c) ∈ [("("%char, ")"%char); ("["%char, "]"%char); ("{"%char, "}"%char)] ->
  passes_inside s ->
  passes (String o EmptyString +:+ s +:+ String c EmptyString).
Proof.
  intros Hoc Hs d cur rest.
  assert (Hstep : spec_split_top_level d cur
                    ((String o EmptyString +:+ s +:+ String c EmptyString) +:+ rest)
                  = spec_split_top_level (S d) (cur +:+ String o EmptyString)
                      (s +:+ String c rest)).
  { rewrite !string_app_assoc.
    repeat (apply elem_of_cons in Hoc as [[= -> ->]|Hoc]; [reflexivity|]).
    by apply elem_of_nil in Hoc. }
  rewrite Hstep, Hs.
  rewrite <- !string_app_assoc.
  repeat (apply elem_of_cons in Hoc as [[= -> ->]|Hoc]; [reflexivity|]).
  by apply elem_of_nil in Hoc.
Qed.

Lemma passes_inside_Join xs :
  Forall passes xs -> passes_inside (Join xs ", ").
Proof.
  induction 1 as [|x xs Hx Hxs IH].
  - apply passes_inside_of_passes, passes_nil.
  - destruct xs as [|y xs].
    + by apply passes_inside_of_passes.
    + change (Join (x :: y :: xs) ", ")
        with (x +:+ ", " +:+ Join (y :: xs) ", ").
      apply passes_inside_app; [by apply passes_inside_of_passes|].
      apply passes_inside_app; [apply passes_inside_separator | exact IH].
Qed.

Lemma mapM_Forall {A B : Type} (f : A -> result B) (Q : B -> Prop) l ys :
  mapM f l = Ok ys ->
  Forall (fun x => forall y, f x = Ok y -> Q y) l ->
  Forall Q ys.
Proof.
  revert ys; induction l as [|x l IH]; intros ys Hys Hl.
  - injection Hys as <-. constructor.
  - cbn [mapM] in Hys. apply Forall_cons in Hl as [Hx Hl].
    destruct (f x) as [y|]; [|discriminate]. rewrite bind_Ok in Hys.
    destruct (mapM f l) as [ys'|]; [|discriminate]. injection Hys as <-.
    constructor; [by apply Hx | by apply IH].
Qed.

Lemma getReturnFields_passes results s :
  Forall (fun f => plain_names f = true /\
                   forall t, getType (Type_ f) = Ok t -> passes t) results ->
  getReturnFields results = Ok s -> passes s.
Proof.
  intros Hres. unfold getReturnFields, getReturnFields_.
  rewrite getReturnFields_loop.
  destruct (mapM renderResult results) as [rs|] eqn:Hrs; [|discriminate].
  rewrite !bind_Ok. cbn [app].
  assert (Hall : Forall passes rs).
  { apply (mapM_Forall _ _ _ _ Hrs). eapply Forall_impl; [exact Hres|].
    intros f [Hn Ht] r. unfold renderResult, spec_result_text.
    destruct (getType (Type_ f)) as [t|]; [|discriminate].
    rewrite bind_Ok. intros [= <-].
    unfold plain_names in Hn. destruct (Names f) as [|n ns]; [by apply Ht|].
    cbn [forallb] in Hn. apply andb_true_iff in Hn as [Hn _].
    apply passes_app; [by apply passes_plain_text|].
    apply passes_app; [by apply passes_plain_text | by apply Ht]. }
  destruct (decide (1 < length rs)).
  - intros [= <-]. apply (passes_bracketed "(" ")").
    + apply list_elem_of_here.
    + by apply passes_inside_Join.
  - destruct rs as [|r rs]; [discriminate|]. intros [= <-].
    by apply Forall_cons in Hall as [Hr _].
Qed.

Lemma getType_passes e :
  plain_idents e = true -> forall s, getType e = Ok s -> passes s.
Proof.
  induction e as [id|X Sel IH|X IH|Len Elt _ IH|Key Value IHk IHv
                 |Params Results IHp IHr|Dir Value IH|Fields _|Methods _
                 |X _|X _|Elt _|Value] using Expr_nested_ind;
    cbn [plain_idents getType]; intros Hplain s Hs;
    try (injection Hs as <-; by apply passes_plain_text).
  - apply andb_true_iff in Hplain as [HX HSel].
    destruct (getType X) as [x|]; [|discriminate]. injection Hs as <-.
    apply passes_app; [by apply IH|].
    apply passes_app; by apply passes_plain_text.
  - destruct (getType X) as [x|]; [|discriminate]. injection Hs as <-.
    apply passes_app; [by apply passes_plain_text | by apply IH].
  - destruct (getType Elt) as [x|]; [|discriminate]. injection Hs as <-.
    apply passes_app; [|by apply IH].
    apply (passes_bracketed "[" "]" EmptyString).
    + apply list_elem_of_further, list_elem_of_here.
    + apply passes_inside_of_passes, passes_nil.
  - apply andb_true_iff in Hplain as [Hk Hv].
    destruct (getType Key) as [k|]; [|discriminate].
    destruct (getType Value) as [v|]; [|discriminate]. injection Hs as <-.
    replace ("map[" +:+ k +:+ "]" +:+ v)
      with ("map" +:+ ("[" +:+ k +:+ "]") +:+ v)
      by (rewrite !string_app_assoc; reflexivity).
    apply passes_app; [by apply passes_plain_text|].
    apply passes_app; [|by apply IHv].
    apply (passes_bracketed "[" "]").
    + apply list_elem_of_further, list_elem_of_here.
    + apply passes_inside_of_passes. by apply IHk.
  - apply andb_true_iff in Hplain as [Hp Hr].
    fold (getParamTypes Params) in Hs. rewrite getParamTypes_mapM in Hs.
    destruct (mapM _ Params) as [ts|] eqn:Hts; [|discriminate].
    rewrite !bind_Ok in Hs.
    destruct Results as [results|]; [|discriminate].
    fold (getReturnFields results) in Hs.
    destruct (getReturnFields results) as [rs|] eqn:Hrs; [|discriminate].
    injection Hs as <-.
    assert (Hps : Forall passes ts).
    { apply (mapM_Forall _ _ _ _ Hts).
      rewrite forallb_forall in Hp. rewrite Forall_forall in IHp.
      apply Forall_forall. intros f Hf t Ht. apply (IHp f Hf); [|done].
      apply Hp. by apply list_elem_of_In. }
    assert (Hrp : passes rs).
    { apply (getReturnFields_passes results); [|done].
      specialize (IHr results eq_refl).
      rewrite forallb_forall in Hr. rewrite Forall_forall in IHr.
      apply Forall_forall. intros f Hf.
      specialize (Hr f (proj1 (list_elem_of_In _ _) Hf)).
      apply andb_true_iff in Hr as [Hn Ht].
      split; [done|]. intros t Ht'. by apply (IHr f Hf). }
    replace ("func(" +:+ Join ts ", " +:+ ") " +:+ rs)
      with ("func" +:+ ("(" +:+ Join ts ", " +:+ ")") +:+ " " +:+ rs)
      by (rewrite !string_app_assoc; reflexivity).
    apply passes_app; [by apply passes_plain_text|].
    apply passes_app.
    + apply (passes_bracketed "(" ")").
      * apply list_elem_of_here.
      * by apply passes_inside_Join.
    + apply passes_app; [by apply passes_plain_text | done].
  - destruct (getType Value) as [v|]; [|discriminate]. injection Hs as <-.
    apply passes_app; [|by apply IH].
    repeat (destruct (decide _)); by apply passes_plain_text.
  - injection Hs as <-. apply (passes_app "struct" "{}").
    + by apply passes_plain_text.
    + apply (passes_bracketed "{" "}" EmptyString).
      * do 2 apply list_elem_of_further. apply list_elem_of_here.
      * apply passes_inside_of_passes, passes_nil.
  - injection Hs as <-. apply (passes_app "interface" "{}").
    + by apply passes_plain_text.
    + apply (passes_bracketed "{" "}" EmptyString).
      * do 2 apply list_elem_of_further. apply list_elem_of_here.
      * apply passes_inside_of_passes, passes_nil.
Qed.

(** X13: when every identifier in a type is a plain text, the rendering of
    the type holds no comma outside brackets: the splitter returns it as a
    single part. *)
Theorem getType_one_part (e : Expr) (s : string) :
  plain_idents e = true -> getType e = Ok s ->
  spec_split_top_level 0 EmptyString s = [s].
Proof.
  intros Hplain Hs. pose proof (getType_passes e Hplain s Hs) as Hp.
  rewrite <- (string_app_nil_r s) at 1. by rewrite Hp.
Qed.

Lemma split_Join rest :
  forall x cur,
    Forall passes (x :: rest) ->
    spec_split_top_level 0 cur (Join (x :: rest) ", ")
    = (cur +:+ x) :: ((fun y => " " +:+ y) <$> rest).
Proof.
  induction rest as [|y rest IH]; intros x cur Hall;
    apply Forall_cons in Hall as [Hx Hrest].
  - cbn [Join fmap list_fmap]. rewrite <- (string_app_nil_r x) at 1.
    by rewrite Hx.
  - change (Join (x :: y :: rest) ", ")
      with (x +:+ ", " +:+ Join (y :: rest) ", ").
    rewrite Hx.
    change (", " +:+ Join (y :: rest) ", ")
      with (String ","%char (String " "%char (Join (y :: rest) ", "))).
    cbn [spec_split_top_level]. cbn [fmap list_fmap]. f_equal.
    change (spec_split_top_level 0 " " (Join (y :: rest) ", ")
            = (" " +:+ y) :: ((fun y => " " +:+ y) <$> rest)).
    by apply IH.
Qed.

Lemma split_Join_parts xs :
  Forall passes xs ->
  spec_split_top_level 0 EmptyString (Join xs ", ") = spec_parts xs.
Proof.
  destruct xs as [|x rest]; [reflexivity|]. intros Hall.
  by rewrite split_Join.
Qed.

Lemma length_spec_parts xs : length (spec_parts xs) = Nat.max 1 (length xs).
Proof. destruct xs; simpl; [done|]. by rewrite length_fmap. Qed.

Lemma first_names_named params :
  Forall (fun p => Names p <> []) params ->
  length (first_names params) = length params.
Proof.
  induction 1 as [|p l Hp _ IH]; [reflexivity|].
  rewrite first_names_cons. destruct (Names p); [done|]. simpl. by rewrite IH.
Qed.

Lemma first_names_passes params :
  Forall (fun p => plain_names p = true) params ->
  Forall passes (first_names params).
Proof.
  induction 1 as [|p l Hp _ IH]; [constructor|].
  rewrite first_names_cons. unfold plain_names in Hp.
  destruct (Names p) as [|n ns]; [done|].
  cbn [forallb] in Hp. apply andb_true_iff in Hp as [Hn _].
  constructor; [by apply passes_plain_text | done].
Qed.

Lemma spec_fields_passes ns ts :
  Forall passes ns -> Forall passes ts -> Forall passes (spec_fields ns ts).
Proof.
  intros Hns. revert ts. induction Hns as [|n ns Hn _ IH]; intros ts Hts.
  - constructor.
  - destruct Hts as [|t ts Ht Hts]; [constructor|].
    unfold spec_fields. cbn [zip_with]. constructor; [|by apply IH].
    apply passes_app; [done|].
    apply passes_app; [by apply passes_plain_text | done].
Qed.

(** X14: for a parameter list in which every field is named and every
    identifier is a plain text, the three projections split at their
    top-level commas into the parts of the types, of the first names and
    of the "name type" entries: sequences of one length, position by
    position about the same field. *)
Theorem makeParam_named_split (params : list (Field Expr)) (P : Param) :
  Forall (fun p => Names p <> [] /\ plain_names p = true /\
                   plain_idents (Type_ p) = true) params ->
  makeParam params = Ok P ->
  exists ts,
    mapM (fun p => getType (Type_ p)) params = Ok ts /\
    spec_split_top_level 0 EmptyString (TypeOnly P) = spec_parts ts /\
    spec_split_top_level 0 EmptyString (NameOnly P)
      = spec_parts (first_names params) /\
    spec_split_top_level 0 EmptyString (Field_ P)
      = spec_parts (spec_fields (first_names params) ts) /\
    length (first_names params) = length ts /\
    length (spec_fields (first_names params) ts) = length ts.
Proof.
  intros Hall HP.
  assert (Hnamed : Forall (fun p => Names p <> []) params)
    by (eapply Forall_impl; [exact Hall|]; by intros p (? & _)).
  assert (Hnames : Forall (fun p => plain_names p = true) params)
    by (eapply Forall_impl; [exact Hall|]; by intros p (_ & ? & _)).
  destruct (mapM (fun p => getType (Type_ p)) params) as [ts|q] eqn:Hts.
  2:{ unfold makeParam, getParamField, getParamField_slices in HP.
      rewrite (getParamField_loop_Panic _ _ _ Hts) in HP. discriminate. }
  exists ts. split; [done|].
  pose proof (getParamField_loop_named params ts ∅ [] [] Hnamed Hts) as Hrun.
  cbn [app] in Hrun.
  unfold makeParam, getParamField, getParamField_slices in HP.
  rewrite Hrun, !bind_Ok, getParamTypes_mapM, Hts in HP.
  rewrite !bind_Ok in HP. injection HP as <-.
  cbn [TypeOnly NameOnly Field_ fst snd].
  assert (Hpt : Forall passes ts).
  { apply (mapM_Forall _ _ _ _ Hts). eapply Forall_impl; [exact Hall|].
    intros p (_ & _ & Hp) t Ht. by apply (getType_passes (Type_ p)). }
  pose proof (first_names_passes _ Hnames) as Hpn.
  pose proof (mapM_Ok_length _ _ _ Hts) as Hlen.
  pose proof (first_names_named _ Hnamed) as Hlen'.
  repeat split.
  - by apply split_Join_parts.
  - by apply split_Join_parts.
  - apply split_Join_parts. by apply spec_fields_passes.
  - lia.
  - unfold spec_fields. rewrite length_zip_with. lia.
Qed.

(** ** Loading the files of the package *)

Section Loading.
Variable FileSet : Type.
Variable ImportDir : string -> returned Package.
Variable ParseFile : FileSet -> string -> Mode -> FileSet * returned File.
Variable Base : string -> string.
Variable filepath_Join : string -> string -> string.

Lemma parse_each_app fset names1 names2 :
  parse_each FileSet ParseFile fset (names1 ++ names2)
  = match parse_each FileSet ParseFile fset names1 with
    | (fset1, Ret fs1) =>
        match parse_each FileSet ParseFile fset1 names2 with
        | (fset2, Ret fs2) => (fset2, Ret (fs1 ++ fs2))
        | (fset2, Err err) => (fset2, Err err)
        end
    | (fset1, Err err) => (fset1, Err err)
    end.
Proof.
  revert fset; induction names1 as [|n names1 IH]; intros fset.
  - cbn [app parse_each].
    by destruct (parse_each _ _ fset names2) as [fset2 [fs2|err]].
  - cbn [app parse_each].
    destruct (ParseFile fset n Mode_0) as [fset' [f|err]]; [|reflexivity].
    rewrite IH.
    destruct (parse_each _ _ fset' names1) as [fset1 [fs1|err]]; [|reflexivity].
    by destruct (parse_each _ _ fset1 names2) as [fset2 [fs2|err]].
Qed.

Lemma loadStdlib_files base dir files :
  forall astFiles fset,
    range_loading FileSet
      (fun astFiles file fset =>
         if decide (file = base) then (fset, Ret astFiles)
         else
           match ParseFile fset (filepath_Join dir file) Mode_0 with
           | (fset', Ret file') => (fset', Ret (astFiles ++ [file']))
           | (fset', Err err) => (fset', Err err)
           end)
      files astFiles fset
    = match parse_each FileSet ParseFile fset
              (filepath_Join dir <$> filter (fun f => f <> base) files) with
      | (fset', Ret fs) => (fset', Ret (astFiles ++ fs))
      | (fset', Err err) => (fset', Err err)
      end.
Proof.
  induction files as [|file files IH]; intros astFiles fset.
  - cbn. by rewrite app_nil_r.
  - cbn [range_loading]. rewrite filter_cons.
    destruct (decide (file = base)) as [->|Hne].
    + rewrite decide_False by (intros H; by apply H). apply IH.
    + rewrite decide_True by done. cbn [fmap list_fmap parse_each].
      destruct (ParseFile fset (filepath_Join dir file) Mode_0)
        as [fset' [f|err]]; [|reflexivity].
      rewrite IH.
      destruct (parse_each _ _ fset' _) as [fset'' [fs|err]]; [|reflexivity].
      by rewrite <- app_assoc.
Qed.

End Loading.

(** X15: [loadStdlib] gives up with the error of [build.ImportDir] before
    it parses anything; otherwise it parses, in the order of [GoFiles]
    followed by [CgoFiles], every listed file whose name is not the base
    name of [path], stops at the first parse error, and on success returns
    the file it was given followed by the parsed ones. *)
Theorem loadStdlib_files_in_order
    (FileSet : Type) (ImportDir : string -> returned Package)
    (ParseFile : FileSet -> string -> Mode -> FileSet * returned File)
    (Base : string -> string) (filepath_Join : string -> string -> string)
    (fset : FileSet) (af : File) (path dir : string) :
  loadStdlib FileSet ImportDir ParseFile Base filepath_Join fset af path dir
  = match ImportDir dir with
    | Err err => (fset, Err err)
    | Ret buildPkg =>
        match parse_each FileSet ParseFile fset
                (filepath_Join dir <$>
                   filter (fun f => f <> Base path)
                     (GoFiles buildPkg ++ CgoFiles buildPkg)) with
        | (fset', Ret fs) => (fset', Ret (af :: fs))
        | (fset', Err err) => (fset', Err err)
        end
    end.
Proof.
  unfold loadStdlib. destruct (ImportDir dir) as [buildPkg|err]; [|reflexivity].
  cbv zeta. cbn [range_loading].
  rewrite filter_app, fmap_app, parse_each_app.
  rewrite (loadStdlib_files FileSet ParseFile filepath_Join (Base path) dir
             (GoFiles buildPkg) [af] fset).
  destruct (parse_each _ _ fset _) as [fset1 [fs1|err]]; [|reflexivity].
  rewrite (loadStdlib_files FileSet ParseFile filepath_Join (Base path) dir
             (CgoFiles buildPkg) ([af] ++ fs1) fset1).
  by destruct (parse_each _ _ fset1 _) as [fset2 [fs2|err]].
Qed.

(** ** The names bound in the output *)

Lemma keeps_names_refl st : keeps_names st st.
Proof. repeat split; auto. Qed.

Lemma keeps_names_trans st1 st2 st3 :
  keeps_names st1 st2 -> keeps_names st2 st3 -> keeps_names st1 st3.
Proof.
  intros (Hn1 & Hk1 & Hb1) (Hn2 & Hk2 & Hb2). repeat split.
  - congruence.
  - auto.
  - intros k Hk. destruct (Hb2 k Hk) as [H| ->]; [auto|].
    right. exact Hn1.
Qed.

Lemma for_range_Ok_rel {A S : Type} (R : S -> S -> Prop)
    (body : S -> A -> result S) l :
  (forall s, R s s) -> (forall a b c, R a b -> R b c -> R a c) ->
  Forall (fun x => forall s s', body s x = Ok s' -> R s s') l ->
  forall s s', for_range body l s = Ok s' -> R s s'.
Proof.
  intros Hrefl Htrans. induction 1 as [|x l Hx _ IH]; intros s s' Hrun.
  - injection Hrun as <-. apply Hrefl.
  - cbn [for_range] in Hrun.
    destruct (body s x) as [s1|] eqn:Hb; [|discriminate].
    rewrite bind_Ok in Hrun. eapply Htrans; [by apply Hx | by apply IH].
Qed.

Section Names.
Variable underlying : Ident -> option string.
Variable growcap : nat -> nat -> nat.

Lemma getInterfaces_method_names st x st' :
  getInterfaces_method underlying growcap st x = Ok st' ->
  st_name st' = st_name st /\ st_data st' = st_data st.
Proof.
  unfold getInterfaces_method.
  destruct (Type_ x); try (by intros [= <-]).
  destruct (new_Interface _ _ _ _) as [i|]; [|discriminate].
  rewrite bind_Ok. destruct (append _ _ _ _) as [h r].
  by intros [= <-].
Qed.

Lemma getInterfaces_methods_names Methods :
  forall st st',
    for_range (getInterfaces_method underlying growcap) Methods st = Ok st' ->
    st_name st' = st_name st /\ st_data st' = st_data st.
Proof.
  apply (for_range_Ok_rel
           (fun st st' => st_name st' = st_name st /\ st_data st' = st_data st)).
  - done.
  - intros a b c [? ?] [? ?]. split; congruence.
  - apply Forall_forall. intros x _ s s'. apply getInterfaces_method_names.
Qed.

Lemma visit_Expr_names e st st' :
  getInterfaces_fn underlying growcap (NodeExpr e) st = Ok st' ->
  keeps_names st st' /\
  (forall Methods, e = InterfaceType Methods ->
     is_Some (st_data st' !! st_name st)).
Proof.
  destruct e; cbn [getInterfaces_fn];
    try (intros [= <-]; split; [apply keeps_names_refl | discriminate]).
  destruct (for_range _ Methods st) as [st1|] eqn:Hrun; [|discriminate].
  rewrite bind_Ok. intros [= <-].
  apply getInterfaces_methods_names in Hrun as [Hname Hdata].
  split.
  - repeat split; cbn [st_name st_data]; [done| |].
    + intros k Hk. rewrite Hname, Hdata.
      destruct (decide (st_name st = k)) as [<-|Hne].
      * rewrite lookup_insert_eq. by eexists.
      * by rewrite lookup_insert_ne.
    + intros k. rewrite Hname, Hdata.
      destruct (decide (st_name st = k)) as [<-|Hne]; [by right|].
      rewrite lookup_insert_ne by done. by left.
  - intros _ _. cbn [st_data]. rewrite Hname, lookup_insert_eq. by eexists.
Qed.

Lemma bind_Ok_inv {A B : Type} (m : result A) (k : A -> result B) (b : B) :
  m ≫= k = Ok b -> exists a, m = Ok a /\ k a = Ok b.
Proof. destruct m as [a|p]; [eauto | discriminate]. Qed.

Lemma walkFieldList_names l :
  Forall (fun f => forall st st',
            Walk (getInterfaces_fn underlying growcap) (Type_ f) st = Ok st' ->
            keeps_names st st') l ->
  forall st st',
    walkFieldList_ (getInterfaces_fn underlying growcap)
      (Walk (getInterfaces_fn underlying growcap)) l st = Ok st' ->
    keeps_names st st'.
Proof.
  intros Hl st st'. unfold walkFieldList_.
  rewrite getInterfaces_fn_NodeOther, bind_Ok. revert st st'.
  apply (for_range_Ok_rel keeps_names);
    [apply keeps_names_refl | apply keeps_names_trans|].
  eapply Forall_impl; [exact Hl|]. intros f Hf s s'. cbn beta.
  rewrite getInterfaces_fn_NodeOther, bind_Ok.
  rewrite for_range_id by (apply Forall_forall; reflexivity).
  rewrite bind_Ok. apply Hf.
Qed.

(** The walk below any expression keeps the names. *)
Lemma Walk_names e :
  forall st st',
    Walk (getInterfaces_fn underlying growcap) e st = Ok st' ->
    keeps_names st st'.
Proof.
  induction e as [id|X Sel IH|X IH|Len Elt IHl IH|Key Value IHk IHv
                 |Params Results IHp IHr|Dir Value IH|Fields IHf|Methods IHm
                 |X IH|X IH|Elt IH|Value] using Expr_nested_ind;
    intros st st' Hrun; cbn [Walk] in Hrun;
    apply bind_Ok_inv in Hrun as (st1 & Hvisit & Hrun);
    apply visit_Expr_names in Hvisit as [Hkeep _];
    apply (keeps_names_trans _ _ _ Hkeep); clear Hkeep st.
  - injection Hrun as <-. apply keeps_names_refl.
  - apply bind_Ok_inv in Hrun as (st2 & HX & Hrun).
    rewrite getInterfaces_fn_Ident in Hrun. injection Hrun as <-. by apply IH.
  - by apply IH.
  - apply bind_Ok_inv in Hrun as (st2 & HL & Hrun).
    apply (keeps_names_trans _ st2); [|by apply IH].
    destruct Len as [l|]; [by apply (IHl l)|].
    injection HL as <-. apply keeps_names_refl.
  - apply bind_Ok_inv in Hrun as (st2 & HK & Hrun).
    apply (keeps_names_trans _ st2); [by apply IHk | by apply IHv].
  - apply bind_Ok_inv in Hrun as (st2 & HP & Hrun).
    apply (keeps_names_trans _ st2); [by apply (walkFieldList_names Params)|].
    destruct Results as [results|].
    + by apply (walkFieldList_names results); [apply IHr|].
    + injection Hrun as <-. apply keeps_names_refl.
  - by apply IH.
  - by apply (walkFieldList_names Fields).
  - by apply (walkFieldList_names Methods).
  - by apply IH.
  - by apply IH.
  - by apply IH.
  - injection Hrun as <-. apply keeps_names_refl.
Qed.

(** The walk over one type declaration: the current name becomes the
    declared name when the type is an interface, which is then bound; no
    bound name is lost and no other name becomes bound than the old and
    the new current name. *)
Lemma walkSpec_names s st st' :
  walkSpec (getInterfaces_fn underlying growcap) s st = Ok st' ->
  (forall k, is_Some (st_data st !! k) -> is_Some (st_data st' !! k)) /\
  (forall k, is_Some (st_data st' !! k) ->
             is_Some (st_data st !! k) \/ k = st_name st') /\
  match s with
  | SpecType {| TypeSpec_Name := name; TypeSpec_Type := InterfaceType _ |} =>
      st_name st' = Name name /\ is_Some (st_data st' !! Name name)
  | _ => st_name st' = st_name st
  end.
Proof.
  destruct s as [[name type]|path]; unfold walkSpec.
  2:{ rewrite !getInterfaces_fn_NodeOther, !bind_Ok. intros [= <-]. auto. }
  cbn [getInterfaces_fn TypeSpec_Type TypeSpec_Name]. rewrite !bind_Ok.
  set (st1 := Build_collector _ _ _ _). intros Hrun.
  assert (Hdata1 : st_data st1 = st_data st) by reflexivity.
  pose proof (Walk_names _ _ _ Hrun) as (Hname & Hkeep & Hbound).
  rewrite Hdata1 in Hkeep, Hbound. rewrite <- Hname in Hbound.
  split; [exact Hkeep|]. split; [exact Hbound|].
  destruct type; try (rewrite Hname; reflexivity).
  split; [by rewrite Hname|].
  cbn [Walk] in Hrun. apply bind_Ok_inv in Hrun as (st2 & Hvisit & Hrun).
  apply visit_Expr_names in Hvisit as [_ Hsome].
  apply (walkFieldList_names Methods) in Hrun;
    [|apply Forall_forall; intros f _; apply Walk_names].
  destruct Hrun as (_ & Hkeep2 & _). apply Hkeep2. by apply (Hsome Methods).
Qed.

End Names.

Lemma for_range_Ok_invariant {A S : Type} (I : S -> Prop)
    (body : S -> A -> result S) l :
  (forall x, x ∈ l -> forall s s', body s x = Ok s' -> I s -> I s') ->
  forall s s', for_range body l s = Ok s' -> I s -> I s'.
Proof.
  induction l as [|x l IH]; intros Hbody s s' Hrun Hs.
  - by injection Hrun as <-.
  - cbn [for_range] in Hrun.
    destruct (body s x) as [s1|] eqn:Hb; [|discriminate].
    rewrite bind_Ok in Hrun. apply (IH) with (s := s1); [|done|].
    + intros y Hy. apply Hbody. by apply list_elem_of_further.
    + apply (Hbody x (list_elem_of_here _ _) s s1 Hb Hs).
Qed.

Section Output.
Variable underlying : Ident -> option string.
Variable growcap : nat -> nat -> nat.

Lemma walkSpecs_grow Specs :
  forall st st',
    for_range (fun st s => walkSpec (getInterfaces_fn underlying growcap) s st)
      Specs st = Ok st' ->
    grows st st'.
Proof.
  apply (for_range_Ok_rel grows); [by intros s k|by intros a b c H1 H2 k ?; auto|].
  apply Forall_forall. intros s _ st st' Hrun.
  by apply walkSpec_names in Hrun as [Hkeep _].
Qed.

Lemma walkDecls_grow decls :
  forall st st',
    for_range
      (fun st d =>
         match d with
         | GenDecl Specs =>
             getInterfaces_fn underlying growcap NodeOther st
             ≫= fun st =>
                  for_range
                    (fun st s =>
                       walkSpec (getInterfaces_fn underlying growcap) s st)
                    Specs st
         end) decls st = Ok st' ->
    grows st st'.
Proof.
  apply (for_range_Ok_rel grows); [by intros s k|by intros a b c H1 H2 k ?; auto|].
  apply Forall_forall. intros [Specs] _ st st'.
  rewrite getInterfaces_fn_NodeOther, bind_Ok. apply walkSpecs_grow.
Qed.

End Output.

(** X16: when the pass ends normally, [f.data] has an entry under the
    name of every type declaration of the file whose type is, directly, an
    interface literal (the type assertion on [v.Type] in [getInterfaces]
    holds for it), and every key of [f.data] is such a
    name or the empty name the pass starts with.  A declaration that holds
    the literal under parentheses or deeper in its type is not among
    them. *)
Theorem getInterfaces_bound_names
    (underlying : Ident -> option string) (growcap : nat -> nat -> nat)
    (f : File) (out : list (list (option Interface)) * gmap string slice) :
  getInterfaces underlying growcap f = Ok out ->
  (forall k, is_Some (out.2 !! k) -> storable_name f k) /\
  (forall name Methods,
     declares_interface f name Methods -> is_Some (out.2 !! Name name)).
Proof.
  unfold getInterfaces, walkFile. cbn [make_empty app length].
  rewrite getInterfaces_fn_NodeOther, bind_Ok.
  rewrite getInterfaces_fn_Ident, bind_Ok.
  intros Hrun. apply bind_Ok_inv in Hrun as (st & Hrun & [= <-]).
  cbn [snd]. split.
  - set (J := fun st : collector =>
                storable_name f (st_name st) /\
                forall k, is_Some (st_data st !! k) -> storable_name f k).
    assert (HJ : J st); [|by destruct HJ].
    refine (for_range_Ok_invariant J _ (Decls f) _ _ _ Hrun _).
    2:{ split; [by left|]. intros k [? Hk]. cbn [st_data] in Hk.
        by rewrite lookup_empty in Hk. }
    intros [Specs] HSpecs s s'.
    rewrite getInterfaces_fn_NodeOther, bind_Ok. intros Hinner.
    refine (for_range_Ok_invariant J _ Specs _ _ _ Hinner). clear s s' Hinner.
    intros sp Hsp s s' Hwalk [Hname Hkeys].
    apply walkSpec_names in Hwalk as (_ & Hbound & Hnew).
    assert (Hname' : storable_name f (st_name s')).
    { destruct sp as [[name type]|path]; [|by rewrite Hnew].
      destruct type; try (by rewrite Hnew).
      destruct Hnew as [-> _]. right. exists name, Methods.
      split; [|done]. by exists Specs. }
    split; [exact Hname'|]. intros k Hk.
    destruct (Hbound k Hk) as [Hold| ->]; [by apply Hkeys | exact Hname'].
  - intros name Methods (Specs & HSpecs & Hsp).
    apply list_elem_of_split in HSpecs as (d1 & d2 & Hd).
    apply list_elem_of_split in Hsp as (s1 & s2 & Hs).
    rewrite Hd, for_range_app in Hrun.
    apply bind_Ok_inv in Hrun as (sta & _ & Hrun).
    cbn [for_range] in Hrun.
    apply bind_Ok_inv in Hrun as (stb & Hdecl & Hrest).
    rewrite getInterfaces_fn_NodeOther, bind_Ok, Hs, for_range_app in Hdecl.
    apply bind_Ok_inv in Hdecl as (stc & _ & Hdecl).
    cbn [for_range] in Hdecl.
    apply bind_Ok_inv in Hdecl as (std & Hspec & Hspecs2).
    apply walkSpec_names in Hspec as (_ & _ & _ & Hsome).
    apply walkSpecs_grow in Hspecs2. apply walkDecls_grow in Hrest.
    by apply Hrest, Hspecs2.
Qed.

(** [type A (interface { F() int })] binds its list under the name the
    pass holds at that point, here the empty one, and nothing under "A". *)
Example getInterfaces_parenthesized_interface :
  exists out,
    getInterfaces sample_underlying sample_growcap file_parenthesized = Ok out /\
    methods_of out "A" = None /\
    methods_of out EmptyString = Some [Some record_F].
Proof. eexists. repeat split; vm_compute; reflexivity. Qed.

(** ** Names after the first *)

(** X17: [makeParam] and [makeReturn] read the first name of a field and
    no other: on any list each has the outcome, a record or a panic, that
    it has on the same list with every field cut down to its first name. *)
Theorem makeParam_makeReturn_first_name_only
    (underlying : Ident -> option string) (fields : list (Field Expr)) :
  makeParam (first_name_only <$> fields) = makeParam fields /\
  makeReturn underlying (first_name_only <$> fields)
  = makeReturn underlying fields.
Proof.
  split.
  - unfold makeParam, getParamField, getParamField_slices, getParamTypes,
      getParamTypes_.
    rewrite !for_range_fmap.
    rewrite (for_range_ext
               (fun s x => getParamField_body s (first_name_only x))
               getParamField_body)
      by apply getParamField_body_first_name.
    reflexivity.
  - unfold makeReturn, getReturnFields, getReturnFields_, getDefaultValues.
    rewrite !for_range_fmap.
    rewrite (for_range_ext
               (fun s x => getReturnFields_body getType s (first_name_only x))
               (getReturnFields_body getType))
      by apply getReturnFields_body_first_name.
    reflexivity.
Qed.

End Funcy.

(** * The theorems at the sample inputs *)

Lemma getZeroValue_by_kind_witness :
  getZeroValue sample_underlying (EIdent (ident "Celsius")) = Ok "0" /\
  getZeroValue sample_underlying (EIdent (ident "Celsius"))
    = getZeroValue sample_underlying (EIdent (ident "float64")) /\
  getZeroValue sample_underlying (SelectorExpr (EIdent (ident "temp")) (ident "Celsius"))
    = getZeroValue sample_underlying (EIdent (ident "Celsius")).
Proof.
  exact (getZeroValue_by_kind sample_underlying (ident "Celsius")
           (ident "float64") "float64" (EIdent (ident "temp"))
           eq_refl eq_refl).
Defined.


Lemma makeIdentName_ctx_map_slice_witness :
  makeIdentName "map[string]int" = makeIdentName "int" +:+ "map".
Proof.
  destruct (makeIdentName_ctx_map_slice sample_unicode_ToLower) as (_ & Hmap & _).
  exact (Hmap "[string]int" 10 eq_refl).
Defined.

Lemma getParamField_names_by_stem_witness :
  exists fields names,
    getParamField_slices sample_unicode_ToLower params_interleaved
    = Ok (fields, names) /\
    names !! 3 = Some ("ival" +:+ "1").
Proof.
  destruct (getParamField_names_by_stem sample_unicode_ToLower params_interleaved
              ["int"; "string"; "int"; "int"] eq_refl)
    as (fields & names & Hsl & _ & _ & Hnames); [vm_compute; reflexivity|].
  exists fields, names. split; [exact Hsl|].
  exact (Hnames 3 (unnamed t_int) "int" eq_refl eq_refl eq_refl).
Defined.

Lemma getInterfaces_only_function_members_witness :
  exists st',
    getInterfaces_fn sample_unicode_ToLower sample_underlying sample_growcap
      (NodeExpr (InterfaceType members_embedded)) initial_collector = Ok st' /\
    elems (st_heap st') (st_result st') = [Some record_Close].
Proof.
  destruct (getInterfaces_only_function_members sample_unicode_ToLower
              sample_underlying sample_growcap members_embedded initial_collector
              [record_Close]) as ((st' & Hrun & _ & Hel) & _).
  - intros old needed. unfold sample_growcap. lia.
  - repeat split; simpl; lia.
  - reflexivity.
  - exists st'. split; [exact Hrun | exact Hel].
Defined.

Lemma getInterfaces_later_interface_overwrites_witness :
  exists out,
    getInterfaces sample_unicode_ToLower sample_underlying sample_growcap
      file_two_interfaces = Ok out /\
    methods_of out "A" = Some [Some record_G].
Proof.
  destruct (getInterfaces_later_interface_overwrites sample_unicode_ToLower
              sample_growcap)
    as (out & Hrun & HA & _).
  - intros old needed. unfold sample_growcap. lia.
  - exists out. split; [exact Hrun | exact HA].
Defined.

Lemma getInterfaces_panics_without_results_witness :
  exists p, getInterfaces sample_unicode_ToLower sample_underlying
              sample_growcap file_no_results = Panic p.
Proof.
  apply (getInterfaces_panics_without_results sample_unicode_ToLower
           sample_underlying sample_growcap file_no_results (ident "W")
           [method "Flush" [] None] (method "Flush" [] None) [] None).
  - eexists. split; apply list_elem_of_here.
  - apply list_elem_of_here.
  - reflexivity.
  - by left.
Defined.

Lemma makeIdentName_reserved_witness : makeIdentName "complex128" = "cmplx128val".
Proof. exact (makeIdentName_reserved "complex128" "cmplx128val" eq_refl). Defined.

Lemma reservedPrefix_order_irrelevant_witness :
  makeIdentName_in reservedPrefix_swapped 15 "map[string]int" = "ivalmap".
Proof.
  destruct (reservedPrefix_order_irrelevant reservedPrefix_swapped)
    as (_ & _ & H).
  - apply perm_swap.
  - exact (H "map[string]int").
Defined.

Lemma makeIdentName_recursion_witness :
  makeIdentName_in reservedPrefix 9 "[]string" = makeIdentName "[]string".
Proof.
  destruct (makeIdentName_recursion "[]string") as (_ & _ & H & _).
  apply H. simpl. lia.
Defined.

Lemma makeIdentName_qualified_witness :
  makeIdentName ("*http" +:+ "." +:+ "request") = makeIdentName "request".
Proof.
  exact (makeIdentName_qualified "*http" "request"
           eq_refl eq_refl eq_refl eq_refl).
Defined.

Lemma makeParam_projections_witness :
  exists ns,
    makeParam sample_unicode_ToLower params_interleaved
    = Ok {| TypeOnly := Join ["int"; "string"; "int"; "int"] ", ";
            NameOnly := Join ns ", ";
            Field_ := Join (spec_fields ns ["int"; "string"; "int"; "int"]) ", " |}.
Proof.
  destruct (makeParam_projections sample_unicode_ToLower params_interleaved) as [H _].
  destruct (H ["int"; "string"; "int"; "int"] eq_refl) as (ns & _ & _ & Hp).
  by exists ns.
Defined.

Lemma getParamField_named_witness :
  getParamField sample_unicode_ToLower
    [named ["key"] (EIdent (ident "string")); named ["n"] t_int]
  = Ok ("key string, n int", "key, n").
Proof.
  destruct (getParamField_named sample_unicode_ToLower
              [named ["key"] (EIdent (ident "string")); named ["n"] t_int]
              ["string"; "int"]) as [_ H].
  - repeat constructor; discriminate.
  - reflexivity.
  - exact H.
Defined.

Lemma getParamField_same_stem_distinct_witness :
  Some "ival" <> Some "ival0".
Proof.
  apply (getParamField_same_stem_distinct sample_unicode_ToLower params_interleaved
           ["int"; "string"; "int"; "int"]
           ["ival int"; "strval string"; "ival0 int"; "ival1 int"]
           ["ival"; "strval"; "ival0"; "ival1"]
           0 2 (unnamed t_int) (unnamed t_int) "int" "int");
    first [reflexivity | lia].
Defined.


Lemma getType_one_part_witness :
  spec_split_top_level 0 EmptyString "func(context.Context, int) error"
  = ["func(context.Context, int) error"].
Proof.
  exact (getType_one_part
           (FuncType [unnamed context_Context; unnamed t_int]
              (Some [unnamed t_error]))
           "func(context.Context, int) error" eq_refl eq_refl).
Defined.

Lemma makeParam_named_split_witness :
  exists ts,
    mapM (fun p => getType (Type_ p))
      [named ["key"] (EIdent (ident "string")); named ["n"] t_int] = Ok ts /\
    spec_split_top_level 0 EmptyString "key string, n int"
    = spec_parts (spec_fields ["key"; "n"] ts).
Proof.
  destruct (makeParam_named_split sample_unicode_ToLower
              [named ["key"] (EIdent (ident "string")); named ["n"] t_int]
              {| TypeOnly := "string, int"; NameOnly := "key, n";
                 Field_ := "key string, n int" |})
    as (ts & Hts & _ & _ & Hf & _).
  - repeat (constructor; [repeat split; first [discriminate | reflexivity]|]).
    constructor.
  - reflexivity.
  - exists ts. split; [exact Hts | exact Hf].
Defined.

Lemma getInterfaces_bound_names_witness :
  is_Some (sample_output.2 !! "A") /\ is_Some (sample_output.2 !! "B").
Proof.
  destruct (getInterfaces_bound_names sample_unicode_ToLower sample_underlying sample_growcap
              file_two_interfaces sample_output) as [_ H].
  - vm_compute. reflexivity.
  - split.
    + apply (H (ident "A") [method "F" [] (Some [unnamed t_int])]).
      eexists. split; apply list_elem_of_here.
    + apply (H (ident "B") [method "G" [] (Some [unnamed t_error])]).
      eexists. split; [apply list_elem_of_further|]; apply list_elem_of_here.
Defined.
